(** * The security-checker adapter of lint-action

    A shallow embedding of [src/linters/php-security-checker.js]: the class
    [PHPSecurityChecker] with its static members [name], [verifySetup],
    [lint] and [parseOutput], together with the part of the ECMAScript
    semantics these four members exercise. *)

From Stdlib Require Import List NArith ZArith Bool Ascii String Lia DecimalString.
Import ListNotations.

Local Open Scope list_scope.
#[local] Set Warnings "-register-all".

(** ** Strings

    An ECMAScript string is a finite sequence of 16-bit code units.  Rocq's
    [string] is a sequence of 8-bit characters, so the text the adapter
    handles is kept as a list of code units, and [str] injects the literals
    of the source. *)

Definition jsstring := list N.

Definition str (s : string) : jsstring :=
  map N_of_ascii (list_ascii_of_string s).

Fixpoint String_eqb (a b : jsstring) : bool :=
  match a, b with
  | [], [] => true
  | x :: a', y :: b' => N.eqb x y && String_eqb a' b'
  | _, _ => false
  end.

(** [Array.prototype.join] on an array of strings. *)
Fixpoint join (separator : jsstring) (elements : list jsstring) : jsstring :=
  match elements with
  | [] => []
  | [e] => e
  | e :: rest => e ++ separator ++ join separator rest
  end.

(** Decimal rendering of an array index, as [ToString] gives it for a
    non-negative integer. *)
Definition decimal (n : N) : jsstring :=
  str (NilZero.string_of_uint (N.to_uint n)).

(** [includes s sub]: [sub] occurs in [s] as a contiguous run, the meaning of
    [String.prototype.includes]. *)
Definition includes (s sub : jsstring) : Prop :=
  exists before after, s = before ++ sub ++ after.

(** ** Completions

    A JavaScript call either returns normally or throws.  The adapter throws
    [Error] objects built from a message; the runtime throws [TypeError] from
    property access on [null], from iterating a value that is not iterable,
    and from converting an object without a usable [toString] to a string;
    the wording of those runtime messages belongs to the engine and is not
    kept. *)

Inductive exn : Type :=
| Error (message : jsstring)
| TypeError.

Inductive completion (A : Type) : Type :=
| Normal (a : A)
| Throw (e : exn).

Arguments Normal {A} a.
Arguments Throw {A} e.

Definition bind {A B : Type} (c : completion A) (k : A -> completion B)
  : completion B :=
  match c with
  | Normal a => k a
  | Throw e => Throw e
  end.

Declare Scope completion_scope.
Delimit Scope completion_scope with completion.
Notation "x <- c ;; k" := (bind c (fun x => k))
  (at level 61, c at next level, right associativity) : completion_scope.
Notation "' p <- c ;; k" := (bind c (fun x => let p := x in k))
  (at level 61, p pattern, c at next level, right associativity)
  : completion_scope.

(** ** Values

    The values [parseOutput] can meet: what [JSON.parse] builds, [undefined]
    for an absent property, and the one built-in function reachable through
    the property names the adapter reads ([String.prototype.link]).  An
    object holds its own enumerable properties in the order
    [OrdinaryOwnPropertyKeys] lists them.  Numbers are IEEE doubles: their
    type and their printing are parameters of the development. *)

Inductive value (number : Type) : Type :=
| VUndefined
| VNull
| VBoolean (b : bool)
| VNumber (n : number)
| VString (s : jsstring)
| VArray (elements : list (value number))
| VObject (properties : list (jsstring * value number))
| VFunction (name : jsstring).

Arguments VUndefined {number}.
Arguments VNull {number}.
Arguments VBoolean {number} b.
Arguments VNumber {number} n.
Arguments VString {number} s.
Arguments VArray {number} elements.
Arguments VObject {number} properties.
Arguments VFunction {number} name.

(** What the JavaScript engine supplies and is not fixed here: the printing
    of a double ([Number::toString], whose digits ECMA-262 leaves in part to
    the implementation) and [JSON.parse] on a string, which gives the decoded
    value or the message of the [SyntaxError] it throws. *)
Class Engine (number : Type) : Type := {
  Number_toString : number -> jsstring;
  JSON_parse : jsstring -> value number + jsstring
}.

(** The property names the adapter reads. *)
Inductive property : Type :=
| P_advisories
| P_version
| P_cve
| P_link
| P_title.

Definition property_key (p : property) : jsstring :=
  match p with
  | P_advisories => str "advisories"
  | P_version => str "version"
  | P_cve => str "cve"
  | P_link => str "link"
  | P_title => str "title"
  end.

Definition is_property_link (p : property) : bool :=
  match p with
  | P_link => true
  | _ => false
  end.

Section Values.

Context {number : Type} {engine : Engine number}.

Local Open Scope completion_scope.

Fixpoint own_property (properties : list (jsstring * value number))
    (key : jsstring) : option (value number) :=
  match properties with
  | [] => None
  | (k, v) :: rest =>
      if String_eqb k key then Some v else own_property rest key
  end.

(** [v.p] for the five names of [property].  None of them is an own
    property of a string, an array or a function, and the only one found on
    a built-in prototype is [link], on [String.prototype]. *)
Definition Get (v : value number) (p : property) : completion (value number) :=
  match v with
  | VUndefined | VNull => Throw TypeError
  | VBoolean _ | VNumber _ | VArray _ | VFunction _ => Normal VUndefined
  | VString _ =>
      if is_property_link p then Normal (VFunction (str "link"))
      else Normal VUndefined
  | VObject properties =>
      match own_property properties (property_key p) with
      | Some x => Normal x
      | None => Normal VUndefined
      end
  end.

(** Splitting a string into code points, the way the string iterator does:
    a leading surrogate followed by a trailing one forms one element. *)
Definition is_lead (c : N) : bool := (55296 <=? c)%N && (c <=? 56319)%N.
Definition is_trail (c : N) : bool := (56320 <=? c)%N && (c <=? 57343)%N.

Fixpoint code_points (s : jsstring) : list jsstring :=
  match s with
  | [] => []
  | c :: rest =>
      match rest with
      | d :: rest' =>
          if is_lead c && is_trail d then [c; d] :: code_points rest'
          else [c] :: code_points rest
      | [] => [[c]]
      end
  end.

(** The elements a [for ... of] loop visits.  Arrays and strings are the
    only iterable values among those of [value]. *)
Definition iterate (v : value number) : completion (list (value number)) :=
  match v with
  | VArray elements => Normal elements
  | VString s => Normal (map VString (code_points s))
  | _ => Throw TypeError
  end.

Fixpoint indexed {A : Type} (i : N) (l : list A) : list (jsstring * A) :=
  match l with
  | [] => []
  | x :: rest => (decimal i, x) :: indexed (N.succ i) rest
  end.

(** [Object.entries(v)]. *)
Definition Object_entries (v : value number)
  : completion (list (jsstring * value number)) :=
  match v with
  | VUndefined | VNull => Throw TypeError
  | VBoolean _ | VNumber _ | VFunction _ => Normal []
  | VString s => Normal (indexed 0 (map (fun c => VString [c]) s))
  | VArray elements => Normal (indexed 0 elements)
  | VObject properties => Normal properties
  end.

Definition has_own_property (properties : list (jsstring * value number))
    (key : jsstring) : bool :=
  match own_property properties key with
  | Some _ => true
  | None => false
  end.

(** [ToString(v)], the conversion a template literal applies to each
    substitution.  An object decoded from JSON prints through
    [Object.prototype.toString] unless an own [toString] property, never
    callable, hides it; an array prints through [Array.prototype.join]. *)
Fixpoint ToString (v : value number) : completion jsstring :=
  match v with
  | VUndefined => Normal (str "undefined")
  | VNull => Normal (str "null")
  | VBoolean b => Normal (if b then str "true" else str "false")
  | VNumber n => Normal (Number_toString n)
  | VString s => Normal s
  | VArray elements =>
      (fix joined (l : list (value number)) : completion jsstring :=
         match l with
         | [] => Normal []
         | e :: rest =>
             s <- match e with
                  | VUndefined | VNull => Normal []
                  | _ => ToString e
                  end ;;
             match rest with
             | [] => Normal s
             | _ => t <- joined rest ;; Normal (s ++ str "," ++ t)
             end
         end) elements
  | VObject properties =>
      if has_own_property properties (str "toString") then Throw TypeError
      else Normal (str "[object Object]")
  | VFunction name =>
      Normal (str "function " ++ name ++ str "() { [native code] }")
  end.

End Values.

(** ** Collaborators

    The adapter reaches the outside world through three functions of the
    host: [commandExists] (../utils/command-exists), [run] (../utils/action)
    and [core.warning] (@actions/core).  The adapter's methods are embedded
    as trees of calls to them, so that which calls are made, in which order
    and with which arguments can be stated; [perform] runs such a tree
    against any implementation of the three. *)

(** What [run] returns: the exit code of the process, an integer, and the
    text captured from its two output streams. *)
Record RawOutput : Type := {
  status : Z;
  stdout : jsstring;
  stderr : jsstring
}.

(** The options object handed to [run]; [ignoreErrors] is [None] when the
    caller leaves the key out. *)
Record RunOptions : Type := {
  dir : jsstring;
  ignoreErrors : option bool
}.

Inductive action (A : Type) : Type :=
| Return (c : completion A)
| Call_commandExists (command : jsstring) (k : bool -> action A)
| Call_run (cmd : jsstring) (options : RunOptions)
    (k : completion RawOutput -> action A)
| Call_warning (message : jsstring) (k : action A).

Arguments Return {A} c.
Arguments Call_commandExists {A} command k.
Arguments Call_run {A} cmd options k.
Arguments Call_warning {A} message k.

Inductive event : Type :=
| Ev_commandExists (command : jsstring)
| Ev_run (cmd : jsstring) (options : RunOptions)
| Ev_warning (message : jsstring).

(** The probe answers a boolean, as the interface of the collaborator
    has it ([exists(binaryName) -> boolean]); a probe that fails instead of
    answering is outside this model of the host. *)
Record Host (W : Type) : Type := {
  commandExists : jsstring -> W -> bool * W;
  run : jsstring -> RunOptions -> W -> completion RawOutput * W;
  core_warning : jsstring -> W -> W
}.

Arguments commandExists {W} h command w : rename.
Arguments run {W} h cmd options w : rename.
Arguments core_warning {W} h message w : rename.

(** [perform h a w] runs [a] from the world [w]: the outcome, the world left
    behind and the calls made, oldest first. *)
Fixpoint perform {W A : Type} (h : Host W) (a : action A) (w : W)
  : completion A * W * list event :=
  match a with
  | Return c => (c, w, [])
  | Call_commandExists command k =>
      let (found, w1) := commandExists h command w in
      let '(c, w2, calls) := perform h (k found) w1 in
      (c, w2, Ev_commandExists command :: calls)
  | Call_run cmd options k =>
      let (output, w1) := run h cmd options w in
      let '(c, w2, calls) := perform h (k output) w1 in
      (c, w2, Ev_run cmd options :: calls)
  | Call_warning message k =>
      let '(c, w2, calls) := perform h k (core_warning h message w) in
      (c, w2, Ev_warning message :: calls)
  end.

Definition outcome {W A : Type} (r : completion A * W * list event)
  : completion A := fst (fst r).
Definition calls {W A : Type} (r : completion A * W * list event)
  : list event := snd r.

(** An argument left out of a call takes the default of the parameter. *)
Definition or_default {A : Type} (argument : option A) (default : A) : A :=
  match argument with
  | Some a => a
  | None => default
  end.

(** ** Lint results *)

Section Adapter.

Context {number : Type} {engine : Engine number}.

(** One object pushed on the [error] list.  [firstLine] and [lastLine]
    receive the [cve] property as it is, whatever its type. *)
Record entry : Type := {
  path : jsstring;
  firstLine : value number;
  lastLine : value number;
  message : jsstring
}.

Record LintResult : Type := {
  isSuccess : option bool;
  error : list entry;
  warning : list entry;
  notice : list entry
}.

(** Modelled from the spec: [initLintResult] of ../utils/lint-result, which
    is not part of the sources at hand.  It "produces an empty
    NormalizedResult with the three empty severity buckets and isSuccess
    undefined until set", a fresh object on every call. *)
Definition initLintResult : LintResult :=
  {| isSuccess := None; error := []; warning := []; notice := [] |}.

Definition set_isSuccess (r : LintResult) (b : bool) : LintResult :=
  {| isSuccess := Some b; error := error r;
     warning := warning r; notice := notice r |}.

(** [r.error.push(e)] *)
Definition error_push (r : LintResult) (e : entry) : LintResult :=
  {| isSuccess := isSuccess r; error := error r ++ [e];
     warning := warning r; notice := notice r |}.

(** ** The adapter *)

(** [static get name()] *)
Definition name : jsstring := str "security-checker".

Definition quote : jsstring := [34%N].

(** [static async verifySetup(dir, prefix = "")] *)
Definition verifySetup (dir : jsstring) (prefix : option jsstring)
  : action unit :=
  let prefix := or_default prefix (str "") in
  Call_commandExists (str "php") (fun found =>
    if negb found then Return (Throw (Error (str "PHP is not installed")))
    else
      Call_run (prefix ++ str " security-checker --version")
        {| dir := dir; ignoreErrors := None |}
        (fun r =>
           match r with
           | Normal _ => Return (Normal tt)
           | Throw err =>
               Return (Throw (Error (name ++ str " is not installed")))
           end)).

(** [static lint(dir, extensions, args = "", fix = false, prefix = "")] *)
Definition lint (dir : jsstring) (extensions : list jsstring)
    (args : option jsstring) (fix_ : option bool) (prefix : option jsstring)
  : action RawOutput :=
  let args := or_default args (str "") in
  let fix_ := or_default fix_ false in
  let prefix := or_default prefix (str "") in
  let extensionsArg := join (str ",") extensions in
  let invocation :=
    Call_run
      (prefix ++ str " security-checker security:check composer.lock "
         ++ args ++ str " --no-dev --format=json")
      {| dir := dir; ignoreErrors := Some true |}
      (fun r => Return r) in
  if fix_ then
    Call_warning
      (name ++ str " does not support auto-fixing " ++ extensionsArg)
      invocation
  else invocation.

Local Open Scope completion_scope.

(** The body of the inner loop: the destructuring of [advisor] and the
    object literal [entry]. *)
Definition make_entry (dependency : jsstring) (advisories advisor : value number)
  : completion entry :=
  cve <- Get advisor P_cve ;;
  link <- Get advisor P_link ;;
  title <- Get advisor P_title ;;
  version <- Get advisories P_version ;;
  version_text <- ToString version ;;
  title_text <- ToString title ;;
  link_text <- ToString link ;;
  Normal {| path := dependency ++ str " version: " ++ version_text ++ str " ";
            firstLine := cve;
            lastLine := cve;
            message := title_text ++ str " (" ++ link_text ++ str ")" |}.

(** [for (const advisor of advisories.advisories) { ... }] over the
    elements still to visit. *)
Fixpoint for_advisor (dependency : jsstring) (advisories : value number)
    (advisors : list (value number)) (lintResult : LintResult)
  : completion LintResult :=
  match advisors with
  | [] => Normal lintResult
  | advisor :: rest =>
      e <- make_entry dependency advisories advisor ;;
      for_advisor dependency advisories rest (error_push lintResult e)
  end.

(** [for (const [dependency, advisories] of Object.entries(outputJson))] *)
Fixpoint for_dependency (entries : list (jsstring * value number))
    (lintResult : LintResult) : completion LintResult :=
  match entries with
  | [] => Normal lintResult
  | (dependency, advisories) :: rest =>
      list_ <- Get advisories P_advisories ;;
      advisors <- iterate list_ ;;
      lintResult <- for_advisor dependency advisories advisors lintResult ;;
      for_dependency rest lintResult
  end.

(** The error thrown from the [catch] around [JSON.parse]. *)
Definition OutputParseError (err_message output_stdout : jsstring) : exn :=
  Error (str "Error parsing " ++ name ++ str " JSON output: " ++ err_message
           ++ str ". Output: " ++ quote ++ output_stdout ++ quote).

(** [static parseOutput(dir, output)] *)
Definition parseOutput (dir : jsstring) (output : RawOutput)
  : completion LintResult :=
  let lintResult := initLintResult in
  let lintResult := set_isSuccess lintResult (status output =? 0)%Z in
  match JSON_parse (stdout output) with
  | inr err_message =>
      Throw (OutputParseError err_message (stdout output))
  | inl outputJson =>
      entries <- Object_entries outputJson ;;
      for_dependency entries lintResult
  end.

End Adapter.

(** ** JSON.parse

    A decoder for the JSON grammar of ECMA-404 as [JSON.parse] applies it to
    a string, without reviver.  It is the implementation of [JSON_parse] the
    examples run on.  A number is kept as the text it was written with:
    turning it into a double and printing the double back is floating-point
    work that no property below depends on.  The wording of a [SyntaxError]
    message is the engine's; the one produced here names the offending
    character and its position, or the end of the input. *)

Module JSON.

Definition number : Type := jsstring.

(** Prints a number by its source text, and [-0] as [0].  That is what
    [Number::toString] yields for an integer of magnitude below 2^53
    written without fraction or exponent.  For a number written with a
    fraction or an exponent an engine may print other digits ([1.5] for
    [1.50], [100] for [1e2]); no sample below prints such a number. *)
Definition print_number (n : number) : jsstring :=
  if String_eqb n (str "-0") then str "0" else n.

Inductive syntax_error : Type :=
| Unexpected_token (c : N) (position : N)
| Unexpected_end.

Definition syntax_error_message (e : syntax_error) : jsstring :=
  match e with
  | Unexpected_token c position =>
      str "Unexpected token " ++ [c] ++ str " in JSON at position "
        ++ decimal position
  | Unexpected_end => str "Unexpected end of JSON input"
  end.

Inductive result (A : Type) : Type :=
| Ok (a : A) (rest : jsstring) (position : N)
| Bad (e : syntax_error).

Arguments Ok {A} a rest position.
Arguments Bad {A} e.

Definition is_whitespace (c : N) : bool :=
  (c =? 32)%N || (c =? 9)%N || (c =? 10)%N || (c =? 13)%N.

Definition is_digit (c : N) : bool := (48 <=? c)%N && (c <=? 57)%N.

Definition hex_value (c : N) : option N :=
  if is_digit c then Some (c - 48)%N
  else if (97 <=? c)%N && (c <=? 102)%N then Some (c - 87)%N
  else if (65 <=? c)%N && (c <=? 70)%N then Some (c - 55)%N
  else None.

Fixpoint skip_whitespace (s : jsstring) (position : N) : jsstring * N :=
  match s with
  | c :: rest =>
      if is_whitespace c then skip_whitespace rest (N.succ position)
      else (s, position)
  | [] => (s, position)
  end.

(** The rest of a keyword ([null], [true], [false]) after its first
    letter. *)
Fixpoint keyword (expected s : jsstring) (position : N) {A : Type} (a : A)
  : result A :=
  match expected with
  | [] => Ok a s position
  | e :: expected' =>
      match s with
      | [] => Bad Unexpected_end
      | c :: rest =>
          if (c =? e)%N then keyword expected' rest (N.succ position) a
          else Bad (Unexpected_token c position)
      end
  end.

Fixpoint digits (s : jsstring) : jsstring * jsstring :=
  match s with
  | c :: rest =>
      if is_digit c then let (d, r) := digits rest in (c :: d, r)
      else ([], s)
  | [] => ([], s)
  end.

(** One or more digits. *)
Definition digits1 (s : jsstring) (position : N) : result jsstring :=
  match digits s with
  | ([], []) => Bad Unexpected_end
  | ([], c :: _) => Bad (Unexpected_token c position)
  | (d, rest) => Ok d rest (position + N.of_nat (List.length d))%N
  end.

(** A number token: an optional minus sign; a zero, or a non-zero digit
    followed by digits; an optional fraction, a point and one or more
    digits; an optional exponent, [e] or [E], an optional sign and one or
    more digits. *)
Definition scan_number (s : jsstring) (position : N) : result jsstring :=
  let '(sign, s0, p0) :=
    match s with
    | 45%N :: rest => ([45%N], rest, N.succ position)
    | _ => ([], s, position)
    end in
  let integer :=
    match s0 with
    | 48%N :: rest => Ok [48%N] rest (N.succ p0)
    | _ => digits1 s0 p0
    end in
  match integer with
  | Bad e => Bad e
  | Ok int s1 p1 =>
      let fraction :=
        match s1 with
        | 46%N :: rest =>
            match digits1 rest (N.succ p1) with
            | Ok d s2 p2 => Ok (46%N :: d) s2 p2
            | Bad e => Bad e
            end
        | _ => Ok [] s1 p1
        end in
      match fraction with
      | Bad e => Bad e
      | Ok frac s2 p2 =>
          let exponent :=
            match s2 with
            | e :: rest =>
                if (e =? 101)%N || (e =? 69)%N then
                  let '(esign, s3, p3) :=
                    match rest with
                    | c :: rest' =>
                        if (c =? 43)%N || (c =? 45)%N
                        then ([c], rest', (p2 + 2)%N)
                        else ([], rest, N.succ p2)
                    | [] => ([], rest, N.succ p2)
                    end in
                  match digits1 s3 p3 with
                  | Ok d s4 p4 => Ok (e :: esign ++ d) s4 p4
                  | Bad err => Bad err
                  end
                else Ok [] s2 p2
            | [] => Ok [] s2 p2
            end in
          match exponent with
          | Bad e => Bad e
          | Ok ex s3 p3 => Ok (sign ++ int ++ frac ++ ex) s3 p3
          end
      end
  end.

(** The character after a backslash and the code unit it stands for:
    quotation mark, backslash, slash, and the letters b, f, n, r, t. *)
Definition simple_escape (c : N) : option N :=
  if (c =? 34)%N then Some 34%N
  else if (c =? 92)%N then Some 92%N
  else if (c =? 47)%N then Some 47%N
  else if (c =? 98)%N then Some 8%N
  else if (c =? 102)%N then Some 12%N
  else if (c =? 110)%N then Some 10%N
  else if (c =? 114)%N then Some 13%N
  else if (c =? 116)%N then Some 9%N
  else None.

(** The characters of a string up to its closing quote; [acc] holds the
    decoded code units, newest first. *)
Fixpoint scan_string (s : jsstring) (position : N) (acc : jsstring)
  : result jsstring :=
  match s with
  | [] => Bad Unexpected_end
  | c :: rest =>
      if (c =? 34)%N then Ok (rev acc) rest (N.succ position)
      else if (c =? 92)%N then
        match rest with
        | [] => Bad Unexpected_end
        | e :: rest1 =>
            match simple_escape e with
            | Some u => scan_string rest1 (position + 2)%N (u :: acc)
            | None =>
                if (e =? 117)%N then
                  match rest1 with
                  | h1 :: h2 :: h3 :: h4 :: rest2 =>
                      match hex_value h1, hex_value h2,
                            hex_value h3, hex_value h4 with
                      | Some a, Some b, Some c', Some d =>
                          scan_string rest2 (position + 6)%N
                            ((a * 4096 + b * 256 + c' * 16 + d)%N :: acc)
                      | None, _, _, _ =>
                          Bad (Unexpected_token h1 (position + 2)%N)
                      | _, None, _, _ =>
                          Bad (Unexpected_token h2 (position + 3)%N)
                      | _, _, None, _ =>
                          Bad (Unexpected_token h3 (position + 4)%N)
                      | _, _, _, None =>
                          Bad (Unexpected_token h4 (position + 5)%N)
                      end
                  | _ => Bad Unexpected_end
                  end
                else Bad (Unexpected_token e (N.succ position))
            end
        end
      else if (c <? 32)%N then Bad (Unexpected_token c position)
      else scan_string rest (N.succ position) (c :: acc)
  end.

(** Whether a property key is an array index: the decimal form, without
    leading zero, of an integer up to 2^32 - 2. *)
Definition array_index (key : jsstring) : option N :=
  match key with
  | [] => None
  | c :: rest =>
      if forallb is_digit key
         && (negb (c =? 48)%N || match rest with [] => true | _ => false end)
         && (List.length key <=? 10)%nat
      then
        let n := fold_left (fun a d => (a * 10 + (d - 48))%N) key 0%N in
        if (n <=? 4294967294)%N then Some n else None
      else None
  end.

Definition properties : Type := list (jsstring * value number).

Fixpoint replace_property (ps : properties) (key : jsstring)
    (v : value number) : properties :=
  match ps with
  | [] => []
  | (k, x) :: rest =>
      if String_eqb k key then (k, v) :: rest
      else (k, x) :: replace_property rest key v
  end.

(** A new array-index key goes before the first key that is a larger index
    or no index at all. *)
Fixpoint insert_index (ps : properties) (n : N) (key : jsstring)
    (v : value number) : properties :=
  match ps with
  | [] => [(key, v)]
  | (k, x) :: rest =>
      match array_index k with
      | Some m =>
          if (m <? n)%N then (k, x) :: insert_index rest n key v
          else (key, v) :: ps
      | None => (key, v) :: ps
      end
  end.

(** [CreateDataProperty(object, key, v)] on the property list, which keeps
    the order of [OrdinaryOwnPropertyKeys]: array indices ascending, then
    the other keys in the order they were first created.  A repeated key
    keeps its place and takes the later value. *)
Definition define_property (ps : properties) (key : jsstring)
    (v : value number) : properties :=
  if has_own_property ps key then replace_property ps key v
  else
    match array_index key with
    | Some n => insert_index ps n key v
    | None => ps ++ [(key, v)]
    end.

Definition expect (c : N) (s : jsstring) (position : N) : result unit :=
  match s with
  | [] => Bad Unexpected_end
  | x :: rest =>
      if (x =? c)%N then Ok tt rest (N.succ position)
      else Bad (Unexpected_token x position)
  end.

(** [parse_value] reads one value at the head of [s]; [parse_elements]
    reads the elements of an array from the first one to the closing
    bracket; [parse_members] does the same for the members of an object.
    [fuel] bounds the number of nested calls and never runs out when it
    starts at twice the length of the input plus two. *)
Fixpoint parse_value (fuel : nat) (s : jsstring) (position : N)
  : result (value number) :=
  match fuel with
  | O => Bad Unexpected_end
  | S fuel' =>
      match s with
      | [] => Bad Unexpected_end
      | c :: rest =>
          if (c =? 110)%N then
            keyword (str "ull") rest (N.succ position) VNull
          else if (c =? 116)%N then
            keyword (str "rue") rest (N.succ position) (VBoolean true)
          else if (c =? 102)%N then
            keyword (str "alse") rest (N.succ position) (VBoolean false)
          else if (c =? 34)%N then
            match scan_string rest (N.succ position) [] with
            | Ok text s1 p1 => Ok (VString text) s1 p1
            | Bad e => Bad e
            end
          else if (c =? 45)%N || is_digit c then
            match scan_number s position with
            | Ok text s1 p1 => Ok (VNumber text) s1 p1
            | Bad e => Bad e
            end
          else if (c =? 91)%N then
            let (s1, p1) := skip_whitespace rest (N.succ position) in
            match s1 with
            | 93%N :: s2 => Ok (VArray []) s2 (N.succ p1)
            | _ => parse_elements fuel' s1 p1 []
            end
          else if (c =? 123)%N then
            let (s1, p1) := skip_whitespace rest (N.succ position) in
            match s1 with
            | 125%N :: s2 => Ok (VObject []) s2 (N.succ p1)
            | _ => parse_members fuel' s1 p1 []
            end
          else Bad (Unexpected_token c position)
      end
  end
with parse_elements (fuel : nat) (s : jsstring) (position : N)
    (acc : list (value number)) : result (value number) :=
  match fuel with
  | O => Bad Unexpected_end
  | S fuel' =>
      match parse_value fuel' s position with
      | Bad e => Bad e
      | Ok v s1 p1 =>
          let (s2, p2) := skip_whitespace s1 p1 in
          match s2 with
          | [] => Bad Unexpected_end
          | c :: s3 =>
              if (c =? 93)%N then Ok (VArray (rev (v :: acc))) s3 (N.succ p2)
              else if (c =? 44)%N then
                let (s4, p4) := skip_whitespace s3 (N.succ p2) in
                parse_elements fuel' s4 p4 (v :: acc)
              else Bad (Unexpected_token c p2)
          end
      end
  end
with parse_members (fuel : nat) (s : jsstring) (position : N)
    (acc : properties) : result (value number) :=
  match fuel with
  | O => Bad Unexpected_end
  | S fuel' =>
      match expect 34 s position with
      | Bad e => Bad e
      | Ok _ s0 p0 =>
          match scan_string s0 p0 [] with
          | Bad e => Bad e
          | Ok key s1 p1 =>
              let (s2, p2) := skip_whitespace s1 p1 in
              match expect 58 s2 p2 with
              | Bad e => Bad e
              | Ok _ s3 p3 =>
                  let (s4, p4) := skip_whitespace s3 p3 in
                  match parse_value fuel' s4 p4 with
                  | Bad e => Bad e
                  | Ok v s5 p5 =>
                      let acc' := define_property acc key v in
                      let (s6, p6) := skip_whitespace s5 p5 in
                      match s6 with
                      | [] => Bad Unexpected_end
                      | c :: s7 =>
                          if (c =? 125)%N then
                            Ok (VObject acc') s7 (N.succ p6)
                          else if (c =? 44)%N then
                            let (s8, p8) :=
                              skip_whitespace s7 (N.succ p6) in
                            parse_members fuel' s8 p8 acc'
                          else Bad (Unexpected_token c p6)
                      end
                  end
              end
          end
      end
  end.

(** [JSON.parse(text)] *)
Definition parse (text : jsstring) : value number + jsstring :=
  let (s0, p0) := skip_whitespace text 0 in
  match parse_value (2 * List.length text + 2) s0 p0 with
  | Bad e => inr (syntax_error_message e)
  | Ok v s1 p1 =>
      match skip_whitespace s1 p1 with
      | ([], _) => inl v
      | (c :: _, p2) => inr (syntax_error_message (Unexpected_token c p2))
      end
  end.

End JSON.

#[export] Instance reference_engine : Engine JSON.number := {|
  Number_toString := JSON.print_number;
  JSON_parse := JSON.parse
|}.

Arguments entry number : clear implicits.
Arguments LintResult number : clear implicits.
Arguments initLintResult {number}.

(** ** The wire format of the tool

    What the adapter expects on standard output: a JSON object keyed by
    dependency name, each value an object with a [version] string and an
    [advisories] array of objects that carry at least the strings [cve],
    [link] and [title].  [wire_format] reads a decoded value against that
    description and returns the dependencies in the order of the object's
    properties, or [None] when the value deviates from it. *)

Record Advisory : Type := {
  advisory_cve : jsstring;
  advisory_link : jsstring;
  advisory_title : jsstring
}.

Record Dependency : Type := {
  dependency_name : jsstring;
  dependency_version : jsstring;
  dependency_advisories : list Advisory
}.

Fixpoint traverse {A B : Type} (f : A -> option B) (l : list A)
  : option (list B) :=
  match l with
  | [] => Some []
  | x :: rest =>
      match f x, traverse f rest with
      | Some y, Some ys => Some (y :: ys)
      | _, _ => None
      end
  end.

Section WireFormat.

Context {number : Type}.

Definition string_property (ps : list (jsstring * value number))
    (key : jsstring) : option jsstring :=
  match own_property ps key with
  | Some (VString s) => Some s
  | _ => None
  end.

Definition wire_advisory (v : value number) : option Advisory :=
  match v with
  | VObject ps =>
      match string_property ps (str "cve"),
            string_property ps (str "link"),
            string_property ps (str "title") with
      | Some c, Some l, Some t =>
          Some {| advisory_cve := c; advisory_link := l;
                  advisory_title := t |}
      | _, _, _ => None
      end
  | _ => None
  end.

Definition wire_dependency (member : jsstring * value number)
  : option Dependency :=
  match snd member with
  | VObject ps =>
      match string_property ps (str "version"),
            own_property ps (str "advisories") with
      | Some version, Some (VArray advisors) =>
          match traverse wire_advisory advisors with
          | Some advisories =>
              Some {| dependency_name := fst member;
                      dependency_version := version;
                      dependency_advisories := advisories |}
          | None => None
          end
      | _, _ => None
      end
  | _ => None
  end.

Definition wire_format (v : value number) : option (list Dependency) :=
  match v with
  | VObject members => traverse wire_dependency members
  | _ => None
  end.

(** The finding the contract asks for one advisory of one dependency. *)
Definition finding (d : Dependency) (a : Advisory) : entry number :=
  {| path := dependency_name d ++ str " version: "
               ++ dependency_version d ++ str " ";
     firstLine := VString (advisory_cve a);
     lastLine := VString (advisory_cve a);
     message := advisory_title a ++ str " (" ++ advisory_link a ++ str ")" |}.

Definition findings (d : Dependency) : list (entry number) :=
  map (finding d) (dependency_advisories d).

(** An entry of the decoded value from which the inner loop cannot start:
    its value is not an object, or has no [advisories] member, or has one
    that is neither an array nor a string. *)
Definition without_advisories (x : value number) : bool :=
  match x with
  | VObject ps =>
      match own_property ps (str "advisories") with
      | Some (VArray _) | Some (VString _) => false
      | _ => true
      end
  | _ => true
  end.

(** A decoded value [Object.entries] finds nothing in. *)
Definition without_entries (v : value number) : bool :=
  match v with
  | VBoolean _ | VNumber _ | VString [] | VArray [] | VObject [] => true
  | _ => false
  end.

End WireFormat.

(** ** Output outside the wire format

    What the loops do with members that are absent or are not strings. *)

Section Tolerance.

Context {number : Type} {engine : Engine number}.

(** The number of elements the inner loop visits for one entry of the
    decoded value: the length of an [advisories] array, or the number of
    code points of an [advisories] string. *)
Definition visited (x : value number) : nat :=
  match x with
  | VObject ps =>
      match own_property ps (str "advisories") with
      | Some (VArray advisors) => List.length advisors
      | Some (VString s) => List.length (code_points s)
      | _ => 0
      end
  | _ => 0
  end.

(** The text a template literal shows for a member that is absent or holds
    a primitive value; [None] for the other values. *)
Definition member_text (m : option (value number)) : option jsstring :=
  match m with
  | None | Some VUndefined => Some (str "undefined")
  | Some VNull => Some (str "null")
  | Some (VBoolean b) => Some (if b then str "true" else str "false")
  | Some (VNumber n) => Some (Number_toString n)
  | Some (VString s) => Some s
  | Some (VArray _) | Some (VObject _) | Some (VFunction _) => None
  end.

Definition member_value (m : option (value number)) : value number :=
  match m with
  | Some v => v
  | None => VUndefined
  end.

(** The entry for an advisory that is an object whose [title] and [link]
    are absent or primitive. *)
Definition tolerated_advisory (dependency version_text : jsstring)
    (advisor : value number) : option (entry number) :=
  match advisor with
  | VObject qs =>
      match member_text (own_property qs (str "title")),
            member_text (own_property qs (str "link")) with
      | Some title_text, Some link_text =>
          Some {| path := dependency ++ str " version: " ++ version_text
                            ++ str " ";
                  firstLine := member_value (own_property qs (str "cve"));
                  lastLine := member_value (own_property qs (str "cve"));
                  message := title_text ++ str " (" ++ link_text ++ str ")" |}
      | _, _ => None
      end
  | _ => None
  end.

(** The entries for a dependency record with an [advisories] array of such
    advisories and a [version] that is absent or primitive.  The version is
    read once per advisory, so it is not looked at when the array is
    empty. *)
Definition tolerated_dependency (member : jsstring * value number)
    : option (list (entry number)) :=
  match snd member with
  | VObject ps =>
      match own_property ps (str "advisories") with
      | Some (VArray []) => Some []
      | Some (VArray advisors) =>
          match member_text (own_property ps (str "version")) with
          | Some version_text =>
              traverse (tolerated_advisory (fst member) version_text) advisors
          | None => None
          end
      | _ => None
      end
  | _ => None
  end.

End Tolerance.

(** The command strings of the [run] calls and the texts of the warnings in
    a list of calls. *)
Fixpoint commands (l : list event) : list jsstring :=
  match l with
  | [] => []
  | Ev_run cmd _ :: rest => cmd :: commands rest
  | _ :: rest => commands rest
  end.

Fixpoint run_modes (l : list event) : list (option bool) :=
  match l with
  | [] => []
  | Ev_run _ options :: rest => ignoreErrors options :: run_modes rest
  | _ :: rest => run_modes rest
  end.

Fixpoint warnings (l : list event) : list jsstring :=
  match l with
  | [] => []
  | Ev_warning message :: rest => message :: warnings rest
  | _ :: rest => warnings rest
  end.

(** ** parseOutput on a store

    The embedding above keeps [parseOutput] as a function of the output
    record.  In the source it works on objects: it reads [status] and
    [stdout] from the object it is handed, and it writes to the object
    [initLintResult] creates, once for [isSuccess] and once per entry for
    [error.push].  The embedding below keeps those objects in a store, so
    that what a call reads and what it writes can be stated.  A store is
    the list of the objects created so far; a location is a position in
    it.  The decoded value and the entries are values: nothing writes to
    them after they are built. *)

Module Store.

Section Store.

Context {number : Type} {engine : Engine number}.

Definition loc : Type := nat.

Inductive cell : Type :=
| Output (o : RawOutput)
| Result (isSuccess : option bool) (error warning notice : loc)
| Array (elements : list (entry number)).

Definition store : Type := list cell.

Definition read (s : store) (l : loc) : option cell := nth_error s l.

Fixpoint write (s : store) (l : loc) (c : cell) : store :=
  match s with
  | [] => []
  | x :: rest =>
      match l with
      | O => c :: rest
      | S l' => x :: write rest l' c
      end
  end.

Definition alloc (s : store) (c : cell) : loc * store :=
  (List.length s, s ++ [c]).

(** A step of the method: its completion and the store it leaves. *)
Definition M (A : Type) : Type := store -> completion A * store.

Definition ret {A : Type} (a : A) : M A := fun s => (Normal a, s).

Definition throw {A : Type} (e : exn) : M A := fun s => (Throw e, s).

Definition lift {A : Type} (c : completion A) : M A := fun s => (c, s).

Definition bind {A B : Type} (m : M A) (k : A -> M B) : M B :=
  fun s =>
    match m s with
    | (Normal a, s') => k a s'
    | (Throw e, s') => (Throw e, s')
    end.

(** Modelled from the spec: [initLintResult] of ../utils/lint-result, "an
    empty NormalizedResult with the three empty severity buckets and
    isSuccess undefined until set", "created fresh per invocation": three
    new empty arrays and a new object that refers to them. *)
Definition initLintResult : M loc :=
  fun s =>
    let (error, s1) := alloc s (Array []) in
    let (warning, s2) := alloc s1 (Array []) in
    let (notice, s3) := alloc s2 (Array []) in
    let (lintResult, s4) := alloc s3 (Result None error warning notice) in
    (Normal lintResult, s4).

(** [output.status] and [output.stdout].  The caller hands over an output
    object; a location that holds none is outside the method's inputs. *)
Definition get_status (output : loc) : M Z :=
  fun s =>
    match read s output with
    | Some (Output o) => (Normal (status o), s)
    | _ => (Throw TypeError, s)
    end.

Definition get_stdout (output : loc) : M jsstring :=
  fun s =>
    match read s output with
    | Some (Output o) => (Normal (stdout o), s)
    | _ => (Throw TypeError, s)
    end.

(** [lintResult.isSuccess = b] *)
Definition set_isSuccess (lintResult : loc) (b : bool) : M unit :=
  fun s =>
    match read s lintResult with
    | Some (Result _ error warning notice) =>
        (Normal tt, write s lintResult (Result (Some b) error warning notice))
    | _ => (Throw TypeError, s)
    end.

(** [lintResult.error.push(e)] *)
Definition error_push (lintResult : loc) (e : entry number) : M unit :=
  fun s =>
    match read s lintResult with
    | Some (Result _ error _ _) =>
        match read s error with
        | Some (Array elements) =>
            (Normal tt, write s error (Array (elements ++ [e])))
        | _ => (Throw TypeError, s)
        end
    | _ => (Throw TypeError, s)
    end.

Fixpoint for_advisor (dependency : jsstring) (advisories : value number)
    (advisors : list (value number)) (lintResult : loc) : M unit :=
  match advisors with
  | [] => ret tt
  | advisor :: rest =>
      bind (lift (make_entry dependency advisories advisor)) (fun e =>
      bind (error_push lintResult e) (fun _ =>
      for_advisor dependency advisories rest lintResult))
  end.

Fixpoint for_dependency (entries : list (jsstring * value number))
    (lintResult : loc) : M unit :=
  match entries with
  | [] => ret tt
  | (dependency, advisories) :: rest =>
      bind (lift (Get advisories P_advisories)) (fun list_ =>
      bind (lift (iterate list_)) (fun advisors =>
      bind (for_advisor dependency advisories advisors lintResult) (fun _ =>
      for_dependency rest lintResult)))
  end.

(** [static parseOutput(dir, output)], with [output] the location of the
    output object; the location of the result is returned. *)
Definition parseOutput (dir : jsstring) (output : loc) : M loc :=
  bind initLintResult (fun lintResult =>
  bind (get_status output) (fun output_status =>
  bind (set_isSuccess lintResult (output_status =? 0)%Z) (fun _ =>
  bind (get_stdout output) (fun text =>
  match JSON_parse text with
  | inr err_message =>
      bind (get_stdout output) (fun output_stdout =>
      throw (OutputParseError err_message output_stdout))
  | inl outputJson =>
      bind (lift (Object_entries outputJson)) (fun entries =>
      bind (for_dependency entries lintResult) (fun _ =>
      ret lintResult))
  end)))).

(** The result object at a location, read together with its three
    arrays. *)
Definition result_at (s : store) (l : loc) : option (LintResult number) :=
  match read s l with
  | Some (Result b error warning notice) =>
      match read s error, read s warning, read s notice with
      | Some (Array es), Some (Array ws), Some (Array ns) =>
          Some {| isSuccess := b; error := es; warning := ws; notice := ns |}
      | _, _, _ => None
      end
  | _ => None
  end.

(** A store [s] followed by a result object and its arrays, as they stand
    after [initLintResult] and any number of writes to them. *)
Definition with_result (s : store) (r : LintResult number) : store :=
  s ++ [ Array (error r); Array (warning r); Array (notice r);
         Result (isSuccess r) (List.length s) (List.length s + 1)
           (List.length s + 2) ].

End Store.

Arguments cell number : clear implicits.
Arguments store number : clear implicits.
Arguments M number A : clear implicits.

End Store.

(** ** Sample inputs *)

Module Sample.

(** JSON text written with an apostrophe where the text has a quotation
    mark. *)
Definition text (s : string) : jsstring :=
  map (fun c => if (c =? 39)%N then 34%N else c) (str s).

Definition output (exit_status : Z) (out : jsstring) : RawOutput :=
  {| status := exit_status; stdout := out; stderr := [] |}.

(** One dependency with one advisory. *)
Definition guzzle : jsstring :=
  text "{'guzzlehttp/guzzle':{'version':'6.2.0','advisories':[{'cve':'CVE-2016-5385','link':'https://x','title':'Proxy header vuln'}]}}".

(** Two dependencies, with two advisories and one. *)
Definition three_advisories : jsstring :=
  text "{'a/b':{'version':'1.0','advisories':[{'cve':'C1','link':'L1','title':'T1'},{'cve':'C2','link':'L2','title':'T2'}]},'c/d':{'version':'2.0','advisories':[{'cve':'C1','link':'L1','title':'T1'}]}}".

(** A host is a script of answers; the world counts the calls made. *)
Definition host (php : bool) (result : completion RawOutput) : Host nat :=
  {| commandExists := fun _ w => (php, S w);
     run := fun _ _ w => (result, S w);
     core_warning := fun _ w => S w |}.

Definition tool_output : RawOutput :=
  {| status := 1; stdout := str "{}"; stderr := str "advisories found" |}.

(** The value a text decodes to. *)
Definition decoded (s : jsstring) : value JSON.number :=
  match JSON.parse s with
  | inl v => v
  | inr _ => VUndefined
  end.

Definition guzzle_advisory : Advisory :=
  {| advisory_cve := str "CVE-2016-5385";
     advisory_link := str "https://x";
     advisory_title := str "Proxy header vuln" |}.

Definition guzzle_dependency : Dependency :=
  {| dependency_name := str "guzzlehttp/guzzle";
     dependency_version := str "6.2.0";
     dependency_advisories := [guzzle_advisory] |}.

Definition advisory_1 : Advisory :=
  {| advisory_cve := str "C1"; advisory_link := str "L1";
     advisory_title := str "T1" |}.

Definition advisory_2 : Advisory :=
  {| advisory_cve := str "C2"; advisory_link := str "L2";
     advisory_title := str "T2" |}.

Definition three_advisories_dependencies : list Dependency :=
  [ {| dependency_name := str "a/b"; dependency_version := str "1.0";
       dependency_advisories := [advisory_1; advisory_2] |};
    {| dependency_name := str "c/d"; dependency_version := str "2.0";
       dependency_advisories := [advisory_1] |} ].

(** A dependency record without [advisories], and a top-level array. *)
Definition missing_advisories : jsstring :=
  text "{'a/b':{'version':'1.0'}}".

Definition empty_array : jsstring := text "[]".

(** An [advisories] member that is a string, and property keys that are
    array indices written out of order. *)
Definition string_advisories : jsstring :=
  text "{'a/b':{'version':1,'advisories':'xy'}}".

(** A top-level array of records with members missing, [null] and
    numeric. *)
Definition sparse_records : jsstring :=
  text "[{'advisories':[{'cve':7,'title':null},{'link':'L'}]},{'version':2,'advisories':[]},{'version':true,'advisories':[{}]}]".

(** A store that holds two output objects and the result of an earlier
    call. *)
Definition earlier_store : Store.store JSON.number :=
  [ Store.Output {| status := 0; stdout := guzzle; stderr := [] |};
    Store.Array []; Store.Array []; Store.Array [];
    Store.Result (Some true) 1 2 3;
    Store.Output {| status := 0; stdout := guzzle;
                    stderr := str "warning" |} ].

(** A well-formed advisory followed by [null]. *)
Definition null_advisory : jsstring :=
  text "{'a/b':{'version':'1.0','advisories':[{'cve':'C1','link':'L1','title':'T1'},null]}}".

Definition index_keys : jsstring :=
  text "{'b':{'version':'1','advisories':[]},'10':{'version':'1','advisories':[]},'2':{'version':'1','advisories':[]},'b':{'version':'2','advisories':[]}}".

End Sample.

(** * Properties *)

Section Properties.

Context {number : Type} {engine : Engine number}.

(** Induction on values that reaches the elements of arrays and the
    properties of objects. *)
Lemma value_nested_ind (P : value number -> Prop) :
  P VUndefined -> P VNull ->
  (forall b, P (VBoolean b)) ->
  (forall n, P (VNumber n)) ->
  (forall s, P (VString s)) ->
  (forall l, Forall P l -> P (VArray l)) ->
  (forall ps, Forall (fun kv => P (snd kv)) ps -> P (VObject ps)) ->
  (forall f, P (VFunction f)) ->
  forall v, P v.
Proof.
  intros Hu Hn Hb Hnum Hs Ha Ho Hf.
  refine (fix IH (v : value number) : P v :=
            match v with
            | VUndefined => Hu
            | VNull => Hn
            | VBoolean b => Hb b
            | VNumber n => Hnum n
            | VString s => Hs s
            | VArray l =>
                Ha l ((fix elements (l : list (value number)) : Forall P l :=
                         match l with
                         | [] => Forall_nil _
                         | x :: rest => Forall_cons _ (IH x) (elements rest)
                         end) l)
            | VObject ps =>
                Ho ps ((fix members (ps : list (jsstring * value number))
                          : Forall (fun kv => P (snd kv)) ps :=
                          match ps with
                          | [] => Forall_nil _
                          | kv :: rest =>
                              Forall_cons _ (IH (snd kv)) (members rest)
                          end) ps)
            | VFunction f => Hf f
            end).
Qed.

(** ** What can be thrown after a successful decode *)

Lemma Get_throws (v : value number) (p : property) (e : exn) :
  Get v p = Throw e -> e = TypeError.
Proof.
  destruct v; simpl; try congruence.
  - destruct (is_property_link p); congruence.
  - destruct (own_property properties (property_key p)); congruence.
Qed.

Lemma iterate_throws (v : value number) (e : exn) :
  iterate v = Throw e -> e = TypeError.
Proof. destruct v; simpl; congruence. Qed.

Lemma Object_entries_throws (v : value number) (e : exn) :
  Object_entries v = Throw e -> e = TypeError.
Proof. destruct v; simpl; congruence. Qed.

Lemma ToString_throws (v : value number) (e : exn) :
  ToString v = Throw e -> e = TypeError.
Proof.
  revert e. induction v as [ | | b | n | s | l IHl | ps _ | f]
    using value_nested_ind; intro e; simpl; try congruence.
  - induction IHl as [|x l Hx _ IHrest]; [congruence|].
    assert (Hhead : forall e0,
      match x with
      | VUndefined | VNull => Normal []
      | _ => ToString x
      end = Throw e0 -> e0 = TypeError).
    { intros e0. destruct x; try congruence; apply Hx. }
    destruct (match x with
              | VUndefined | VNull => Normal []
              | _ => ToString x
              end) as [s|e0] eqn:Ex in *; simpl.
    + destruct l as [|y l']; [congruence|].
      match goal with
      | |- bind ?c _ = _ -> _ => destruct c as [t|e1] eqn:Et
      end; simpl; [congruence|].
      intro H; injection H as <-. now apply IHrest.
    + intro H; injection H as <-. now apply Hhead.
  - destruct (has_own_property ps (str "toString")); congruence.
Qed.

Ltac step_bind H :=
  match type of H with
  | bind ?c _ = _ =>
      let E := fresh "E" in
      destruct c eqn:E; simpl in H
  end.

Lemma make_entry_throws dependency advisories advisor (e : exn) :
  make_entry dependency advisories advisor = Throw e -> e = TypeError.
Proof.
  unfold make_entry. intro H.
  repeat (step_bind H;
          [ | injection H as <-;
              (eapply Get_throws + eapply ToString_throws); eassumption ]).
  discriminate.
Qed.

Lemma for_advisor_throws dependency advisories advisors r (e : exn) :
  for_advisor dependency advisories advisors r = Throw e -> e = TypeError.
Proof.
  revert r. induction advisors as [|advisor rest IH]; intros r; simpl.
  - discriminate.
  - intro H. step_bind H.
    + eapply IH; eassumption.
    + injection H as <-. eapply make_entry_throws; eassumption.
Qed.

Lemma for_dependency_throws entries r (e : exn) :
  for_dependency entries r = Throw e -> e = TypeError.
Proof.
  revert r. induction entries as [|[dependency advisories] rest IH];
    intros r; simpl.
  - discriminate.
  - intro H. step_bind H.
    2:{ injection H as <-. eapply Get_throws; eassumption. }
    step_bind H.
    2:{ injection H as <-. eapply iterate_throws; eassumption. }
    step_bind H.
    + eapply IH; eassumption.
    + injection H as <-. eapply for_advisor_throws; eassumption.
Qed.

(** ** What the loops leave untouched *)

Lemma for_advisor_frame dependency advisories advisors r r' :
  for_advisor dependency advisories advisors r = Normal r' ->
  isSuccess r' = isSuccess r /\ warning r' = warning r
  /\ notice r' = notice r.
Proof.
  revert r. induction advisors as [|advisor rest IH]; intros r; simpl.
  - intro H; injection H as <-. auto.
  - intro H. step_bind H; [|discriminate].
    apply IH in H. exact H.
Qed.

Lemma for_dependency_frame entries r r' :
  for_dependency entries r = Normal r' ->
  isSuccess r' = isSuccess r /\ warning r' = warning r
  /\ notice r' = notice r.
Proof.
  revert r. induction entries as [|[dependency advisories] rest IH];
    intros r; simpl.
  - intro H; injection H as <-. auto.
  - intro H. do 3 (step_bind H; [|discriminate]).
    apply IH in H. apply for_advisor_frame in E1.
    destruct H as (-> & -> & ->). exact E1.
Qed.

(** C1.  Whenever [parseOutput] returns a result, its [isSuccess] is the
    comparison of the exit status with 0: it is [true] exactly when the
    status is 0, whatever findings the output holds. *)
Theorem parseOutput_isSuccess dir output r :
  parseOutput dir output = Normal r ->
  isSuccess r = Some (status output =? 0)%Z
  /\ (isSuccess r = Some true <-> status output = 0%Z).
Proof.
  unfold parseOutput. intro H.
  destruct (JSON_parse (stdout output)) as [outputJson|m]; [|discriminate].
  step_bind H; [|discriminate].
  apply for_dependency_frame in H. destruct H as (H & _).
  simpl in H. split; [exact H|].
  rewrite H. split.
  - intro Hs. injection Hs as Hs. now apply Z.eqb_eq.
  - intro Hs. f_equal. now apply Z.eqb_eq.
Qed.

(** ** Output in the wire format *)

Lemma Get_string_property ps (p : property) s :
  string_property ps (property_key p) = Some s ->
  Get (VObject ps : value number) p = Normal (VString s).
Proof.
  unfold string_property, Get.
  destruct (own_property ps (property_key p)) as [[]|]; congruence.
Qed.

Lemma make_entry_wire dependency ps version advisor a d :
  string_property ps (str "version") = Some version ->
  wire_advisory advisor = Some a ->
  dependency_name d = dependency ->
  dependency_version d = version ->
  make_entry dependency (VObject ps) advisor = Normal (finding d a).
Proof.
  intros Hversion Ha <- <-.
  destruct advisor as [ | | | | | | qs | ]; try discriminate.
  unfold wire_advisory in Ha.
  destruct (string_property qs (str "cve")) as [c|] eqn:Hc; [|discriminate].
  destruct (string_property qs (str "link")) as [l|] eqn:Hl; [|discriminate].
  destruct (string_property qs (str "title")) as [t|] eqn:Ht; [|discriminate].
  injection Ha as <-.
  unfold make_entry.
  rewrite (Get_string_property qs P_cve c Hc).
  rewrite (Get_string_property qs P_link l Hl).
  rewrite (Get_string_property qs P_title t Ht).
  rewrite (Get_string_property ps P_version _ Hversion).
  reflexivity.
Qed.

Lemma for_advisor_wire dependency ps version d advisors advisories r :
  string_property ps (str "version") = Some version ->
  dependency_name d = dependency ->
  dependency_version d = version ->
  traverse wire_advisory advisors = Some advisories ->
  for_advisor dependency (VObject ps) advisors r =
    Normal {| isSuccess := isSuccess r;
              error := error r ++ map (finding d) advisories;
              warning := warning r;
              notice := notice r |}.
Proof.
  intros Hversion Hname Hv. revert advisories r.
  induction advisors as [|advisor rest IH]; intros advisories r; simpl.
  - intro H; injection H as <-. simpl. rewrite app_nil_r. now destruct r.
  - destruct (wire_advisory advisor) as [a|] eqn:Ha; [|discriminate].
    destruct (traverse wire_advisory rest) as [l|]; [|discriminate].
    intro H; injection H as <-.
    rewrite (make_entry_wire _ _ _ _ _ d Hversion Ha Hname Hv). simpl.
    rewrite (IH l _ eq_refl). simpl. now rewrite <- app_assoc.
Qed.

Lemma for_dependency_wire entries dependencies r :
  traverse wire_dependency entries = Some dependencies ->
  for_dependency entries r =
    Normal {| isSuccess := isSuccess r;
              error := error r ++ flat_map findings dependencies;
              warning := warning r;
              notice := notice r |}.
Proof.
  revert dependencies r.
  induction entries as [|[dependency x] rest IH]; intros dependencies r; simpl.
  - intro H; injection H as <-. simpl. rewrite app_nil_r. now destruct r.
  - destruct (wire_dependency (dependency, x)) as [d|] eqn:Hd; [|discriminate].
    destruct (traverse wire_dependency rest) as [l|]; [|discriminate].
    intro H; injection H as <-.
    unfold wire_dependency in Hd. simpl in Hd.
    destruct x as [ | | | | | | ps | ]; try discriminate.
    destruct (string_property ps (str "version")) as [version|] eqn:Hversion;
      [|discriminate].
    destruct (own_property ps (str "advisories")) as [[ | | | | | advisors | | ]|]
      eqn:Hadvisories; try discriminate.
    destruct (traverse wire_advisory advisors) as [advisories|] eqn:Hlist;
      [|discriminate].
    injection Hd as <-.
    unfold Get. simpl property_key. rewrite Hadvisories. simpl.
    rewrite (for_advisor_wire dependency ps version
               {| dependency_name := dependency;
                  dependency_version := version;
                  dependency_advisories := advisories |}
               advisors advisories r Hversion eq_refl eq_refl Hlist).
    simpl. rewrite (IH l _ eq_refl). simpl.
    now rewrite <- app_assoc.
Qed.

Lemma parseOutput_wire dir output v dependencies :
  JSON_parse (stdout output) = inl v ->
  wire_format v = Some dependencies ->
  parseOutput dir output =
    Normal {| isSuccess := Some (status output =? 0)%Z;
              error := flat_map findings dependencies;
              warning := [];
              notice := [] |}.
Proof.
  intros Hparse Hwire. unfold parseOutput. rewrite Hparse.
  destruct v as [ | | | | | | members | ]; try discriminate.
  simpl. simpl in Hwire.
  now rewrite (for_dependency_wire _ _ _ Hwire).
Qed.

Lemma length_flat_map_findings dependencies :
  List.length (flat_map (@findings number) dependencies) =
  list_sum (map (fun d => List.length (dependency_advisories d)) dependencies).
Proof.
  induction dependencies as [|d rest IH]; simpl; [reflexivity|].
  rewrite length_app, IH. unfold findings. now rewrite length_map.
Qed.

(** C3.  When the standard output decodes to a value in the wire format,
    with dependencies [d_1 ... d_N], [parseOutput] returns a result whose
    [error] list is the findings of [d_1], in the order of its advisories,
    followed by those of [d_2], and so on: as many entries as there are
    advisories, repeated ones included; [warning] and [notice] stay
    empty. *)
Theorem parseOutput_error_bucket dir output v dependencies :
  JSON_parse (stdout output) = inl v ->
  wire_format v = Some dependencies ->
  exists r,
    parseOutput dir output = Normal r
    /\ error r = flat_map findings dependencies
    /\ List.length (error r) =
       list_sum (map (fun d => List.length (dependency_advisories d))
                   dependencies)
    /\ warning r = []
    /\ notice r = [].
Proof.
  intros Hparse Hwire. eexists. split.
  - exact (parseOutput_wire dir output v dependencies Hparse Hwire).
  - simpl. repeat split. apply length_flat_map_findings.
Qed.

(** C4.  For output in the wire format, every advisory [a] of every
    dependency [d] is emitted as the entry whose [path] is the dependency
    name, [" version: "], the version and a space, whose [firstLine] and
    [lastLine] are both the [cve] string, and whose [message] is the title
    followed by the link in parentheses. *)
Theorem parseOutput_entry_fields dir output v dependencies d a :
  JSON_parse (stdout output) = inl v ->
  wire_format v = Some dependencies ->
  In d dependencies ->
  In a (dependency_advisories d) ->
  exists r,
    parseOutput dir output = Normal r
    /\ In {| path := dependency_name d ++ str " version: "
                       ++ dependency_version d ++ str " ";
             firstLine := VString (advisory_cve a);
             lastLine := VString (advisory_cve a);
             message := advisory_title a ++ str " ("
                          ++ advisory_link a ++ str ")" |}
          (error r).
Proof.
  intros Hparse Hwire Hd Ha. eexists. split.
  - exact (parseOutput_wire dir output v dependencies Hparse Hwire).
  - simpl. apply in_flat_map. exists d. split; [exact Hd|].
    unfold findings. apply in_map_iff. exists a. split; [reflexivity|exact Ha].
Qed.

(** ** Output that does not decode *)

Lemma includes_middle (before s after : jsstring) :
  includes (before ++ s ++ after) s.
Proof. now exists before, after. Qed.

(** C5.  When [JSON.parse] rejects the standard output, [parseOutput]
    throws the error of its [catch] clause, whose message holds the message
    of the decoder's error and the standard output as it was received. *)
Theorem parseOutput_decode_failure dir output err_message :
  JSON_parse (stdout output) = inr err_message ->
  exists text,
    parseOutput dir output = Throw (Error text)
    /\ text = str "Error parsing security-checker JSON output: "
                ++ err_message ++ str ". Output: " ++ quote
                ++ stdout output ++ quote
    /\ includes text err_message
    /\ includes text (stdout output).
Proof.
  intro Hparse. unfold parseOutput. rewrite Hparse.
  eexists. split; [reflexivity|]. split; [|split].
  - reflexivity.
  - exists (str "Error parsing " ++ name ++ str " JSON output: "),
      (str ". Output: " ++ quote ++ stdout output ++ quote).
    now rewrite <- !app_assoc.
  - exists (str "Error parsing " ++ name ++ str " JSON output: "
              ++ err_message ++ str ". Output: " ++ quote), quote.
    now rewrite <- !app_assoc.
Qed.

(** ** Output that decodes but is not in the wire format *)

Lemma without_advisories_throws (x : value number) :
  without_advisories x = true ->
  bind (Get x P_advisories) iterate = Throw TypeError.
Proof.
  destruct x as [ | | | | | | ps | ]; simpl; try reflexivity.
  destruct (own_property ps (str "advisories")) as [[]|];
    simpl; try reflexivity; discriminate.
Qed.

Lemma for_dependency_normal entries r r' k x :
  for_dependency entries r = Normal r' ->
  In (k, x) entries ->
  without_advisories x = false.
Proof.
  revert r. induction entries as [|[dependency advisories] rest IH];
    intros r H Hin; [contradiction|].
  simpl in H. destruct Hin as [Heq|Hin].
  - injection Heq as -> ->.
    destruct (without_advisories x) eqn:Hx; [|reflexivity].
    apply without_advisories_throws in Hx. unfold bind in Hx.
    destruct (Get x P_advisories) as [y|e]; simpl in H; [|discriminate].
    rewrite Hx in H. discriminate.
  - do 3 (step_bind H; [|discriminate]). eapply IH; eassumption.
Qed.

(** C2, as the code has it.  Once the standard output has decoded, the
    error of the [catch] clause is out of reach: whatever [parseOutput]
    throws from then on is a [TypeError] of the runtime.  It throws one when
    the decoded value is [null], and when some entry of the decoded value
    has a value that is not an object, or has no [advisories] member, or has
    one that is neither an array nor a string.  A decoded boolean or number,
    an empty string, an empty array and an empty object give a result
    without findings. *)
Theorem parseOutput_after_decode dir output v :
  JSON_parse (stdout output) = inl v ->
  (forall e, parseOutput dir output = Throw e -> e = TypeError)
  /\ (v = VNull -> parseOutput dir output = Throw TypeError)
  /\ (forall entries k x,
        Object_entries v = Normal entries ->
        In (k, x) entries ->
        without_advisories x = true ->
        parseOutput dir output = Throw TypeError)
  /\ (without_entries v = true ->
      parseOutput dir output =
        Normal {| isSuccess := Some (status output =? 0)%Z;
                  error := []; warning := []; notice := [] |}).
Proof.
  intro Hparse.
  assert (Hthrows : forall e, parseOutput dir output = Throw e -> e = TypeError).
  { unfold parseOutput. rewrite Hparse. intros e H. step_bind H.
    - eapply for_dependency_throws; eassumption.
    - injection H as <-. eapply Object_entries_throws; eassumption. }
  split; [exact Hthrows|]. split; [|split].
  - intros ->. unfold parseOutput. now rewrite Hparse.
  - intros entries k x Hentries Hin Hx.
    destruct (parseOutput dir output) as [r|e] eqn:Hrun.
    + unfold parseOutput in Hrun. rewrite Hparse, Hentries in Hrun.
      simpl in Hrun.
      rewrite (for_dependency_normal _ _ _ _ _ Hrun Hin) in Hx. discriminate.
    + now rewrite (Hthrows e eq_refl).
  - intro Hv. unfold parseOutput. rewrite Hparse.
    destruct v as [ | | | | [|] | [|] | [|] | ]; try discriminate; reflexivity.
Qed.

(** The function [parseOutput] reads [status] and [stdout] only. *)
Lemma parseOutput_fields dir1 dir2 output1 output2 :
  status output1 = status output2 ->
  stdout output1 = stdout output2 ->
  parseOutput dir1 output1 = parseOutput dir2 output2.
Proof.
  intros Hstatus Hstdout. unfold parseOutput.
  now rewrite Hstatus, Hstdout.
Qed.

End Properties.

(** ** Calls on the collaborators *)

Section Calls.

Context {W : Type} (h : Host W).

(** C6.  [verifySetup] first asks whether [php] exists.  On [false] it
    throws "PHP is not installed" and [run] is never called.  On [true] it
    runs the version command: when that throws, [verifySetup] throws the
    adapter's name followed by " is not installed"; when it returns,
    [verifySetup] returns nothing. *)
Theorem verifySetup_outcomes (dir : jsstring) (prefix : option jsstring)
    (w : W) :
  let cmd := or_default prefix (str "") ++ str " security-checker --version" in
  let options := {| dir := dir; ignoreErrors := None |} in
  let probe := commandExists h (str "php") w in
  let version := run h cmd options (snd probe) in
  (fst probe = false ->
   perform h (verifySetup dir prefix) w =
     (Throw (Error (str "PHP is not installed")), snd probe,
      [Ev_commandExists (str "php")]))
  /\ (fst probe = true -> forall e, fst version = Throw e ->
      perform h (verifySetup dir prefix) w =
        (Throw (Error (name ++ str " is not installed")), snd version,
         [Ev_commandExists (str "php"); Ev_run cmd options]))
  /\ (fst probe = true -> forall out, fst version = Normal out ->
      perform h (verifySetup dir prefix) w =
        (Normal tt, snd version,
         [Ev_commandExists (str "php"); Ev_run cmd options])).
Proof.
  simpl. unfold verifySetup. simpl.
  destruct (commandExists h (str "php") w) as [found w1]. simpl.
  repeat split.
  - intros ->. reflexivity.
  - intros -> e. simpl.
    destruct (run h _ _ w1) as [r w2]. simpl. intros ->. reflexivity.
  - intros -> out. simpl.
    destruct (run h _ _ w1) as [r w2]. simpl. intros ->. reflexivity.
Qed.

Lemma perform_lint (dir : jsstring) (extensions : list jsstring)
    (args : option jsstring) (fix_ : option bool) (prefix : option jsstring)
    (w : W) :
  let cmd := or_default prefix (str "")
               ++ str " security-checker security:check composer.lock "
               ++ or_default args (str "") ++ str " --no-dev --format=json" in
  let options := {| dir := dir; ignoreErrors := Some true |} in
  let message := name ++ str " does not support auto-fixing "
                   ++ join (str ",") extensions in
  let w1 := if or_default fix_ false then core_warning h message w else w in
  perform h (lint dir extensions args fix_ prefix) w =
    (fst (run h cmd options w1), snd (run h cmd options w1),
     (if or_default fix_ false then [Ev_warning message] else [])
       ++ [Ev_run cmd options]).
Proof.
  simpl. unfold lint.
  destruct (or_default fix_ false); simpl;
    match goal with |- context [run h ?c ?o ?x] => destruct (run h c o x) end;
    reflexivity.
Qed.

Lemma join_includes (separator : jsstring) (elements : list jsstring)
    (e : jsstring) :
  In e elements -> includes (join separator elements) e.
Proof.
  induction elements as [|x rest IH]; [contradiction|].
  intros [->|Hin].
  - destruct rest as [|y rest'].
    + exists [], []. simpl. now rewrite app_nil_r.
    + exists [], (separator ++ join separator (y :: rest')). reflexivity.
  - destruct rest as [|y rest']; [contradiction|].
    destruct (IH Hin) as (before & after & Heq).
    exists (x ++ separator ++ before), after.
    change (join separator (x :: y :: rest'))
      with (x ++ separator ++ join separator (y :: rest')).
    rewrite Heq. now rewrite <- !app_assoc.
Qed.

(** C7.  With [fix] set, [lint] is the warning followed by [lint] without
    [fix]: one warning, then the same single [run] call with the same
    command, whose outcome is returned.  The warning reads
    "security-checker does not support auto-fixing " followed by the
    extensions separated by commas: nothing for no extension, the extension
    itself for one, [a,b] for two, and every requested extension occurs in
    it.  The command is the one of C10, with the prefix and the arguments
    the caller supplied, or nothing in place of one left out. *)
Theorem lint_fix_requested (dir : jsstring) (extensions : list jsstring)
    (args prefix : option jsstring) (w : W) :
  let cmd := match prefix with Some p => p | None => [] end
               ++ str " security-checker security:check composer.lock "
               ++ match args with Some a => a | None => [] end
               ++ str " --no-dev --format=json" in
  let options := {| dir := dir; ignoreErrors := Some true |} in
  exists list_text,
    let message :=
      str "security-checker does not support auto-fixing " ++ list_text in
    lint dir extensions args (Some true) prefix =
      Call_warning message (lint dir extensions args (Some false) prefix)
    /\ calls (perform h (lint dir extensions args (Some true) prefix) w) =
         [Ev_warning message; Ev_run cmd options]
    /\ calls (perform h (lint dir extensions args (Some false) prefix) w) =
         [Ev_run cmd options]
    /\ outcome (perform h (lint dir extensions args (Some true) prefix) w) =
         fst (run h cmd options (core_warning h message w))
    /\ (forall e, In e extensions -> includes list_text e)
    /\ (extensions = [] -> list_text = [])
    /\ (forall a, extensions = [a] -> list_text = a)
    /\ (forall a b, extensions = [a; b] -> list_text = a ++ str "," ++ b).
Proof.
  cbv zeta. exists (join (str ",") extensions).
  split; [destruct args, prefix; reflexivity|].
  rewrite !perform_lint. unfold calls, outcome. simpl.
  split; [destruct args, prefix; reflexivity|].
  split; [destruct args, prefix; reflexivity|].
  split; [destruct args, prefix; reflexivity|].
  split; [apply join_includes|].
  split; [intros ->; reflexivity|].
  split; [intros a ->; reflexivity|].
  intros a b ->. reflexivity.
Qed.

(** C8.  [lint] calls [run] once, with [ignoreErrors] set, and ends the way
    that call ends: an output the collaborator returns is returned as it
    is, whatever its status. *)
Theorem lint_returns_run_output (dir : jsstring) (extensions : list jsstring)
    (args : option jsstring) (fix_ : option bool) (prefix : option jsstring)
    (w : W) :
  let cmd := or_default prefix (str "")
               ++ str " security-checker security:check composer.lock "
               ++ or_default args (str "") ++ str " --no-dev --format=json" in
  let options := {| dir := dir; ignoreErrors := Some true |} in
  let message := name ++ str " does not support auto-fixing "
                   ++ join (str ",") extensions in
  let w1 := if or_default fix_ false then core_warning h message w else w in
  run_modes (calls (perform h (lint dir extensions args fix_ prefix) w)) =
    [Some true]
  /\ outcome (perform h (lint dir extensions args fix_ prefix) w) =
       fst (run h cmd options w1)
  /\ (forall out : RawOutput,
        fst (run h cmd options w1) = Normal out ->
        outcome (perform h (lint dir extensions args fix_ prefix) w) =
          Normal out).
Proof.
  cbv zeta. rewrite perform_lint. unfold outcome, calls. simpl.
  split; [|split].
  - destruct (or_default fix_ false); reflexivity.
  - reflexivity.
  - intros out Hrun. exact Hrun.
Qed.

(** C10.  The command [lint] hands to [run] is the prefix the caller
    supplied, the fixed text
    " security-checker security:check composer.lock ", the extra arguments
    the caller supplied and " --no-dev --format=json"; a prefix or
    arguments left out count as the empty string.  The directory, the
    extensions and the fix flag do not enter it.  A warning is made only
    when the fix flag is supplied and set, and every warning made shows
    every extension. *)
Theorem lint_command (dir : jsstring) (extensions : list jsstring)
    (args : option jsstring) (fix_ : option bool) (prefix : option jsstring)
    (w : W) :
  commands (calls (perform h (lint dir extensions args fix_ prefix) w)) =
    [match prefix with Some p => p | None => [] end
       ++ str " security-checker security:check composer.lock "
       ++ match args with Some a => a | None => [] end
       ++ str " --no-dev --format=json"]
  /\ (forall dir' extensions' fix' w',
        commands (calls (perform h (lint dir' extensions' args fix' prefix) w'))
        = commands
            (calls (perform h (lint dir extensions args fix_ prefix) w)))
  /\ warnings (calls (perform h (lint dir extensions args fix_ prefix) w)) =
       match fix_ with
       | Some true =>
           [str "security-checker does not support auto-fixing "
              ++ join (str ",") extensions]
       | _ => []
       end
  /\ (forall m e,
        In m (warnings
                (calls (perform h (lint dir extensions args fix_ prefix) w))) ->
        In e extensions ->
        includes m e).
Proof.
  assert (Hcmd : forall d x f w0,
    commands (calls (perform h (lint d x args f prefix) w0)) =
      [match prefix with Some p => p | None => [] end
         ++ str " security-checker security:check composer.lock "
         ++ match args with Some a => a | None => [] end
         ++ str " --no-dev --format=json"]).
  { intros d x f w0. rewrite perform_lint. unfold calls. simpl.
    destruct (or_default f false), args, prefix; reflexivity. }
  assert (Hwarnings :
    warnings (calls (perform h (lint dir extensions args fix_ prefix) w)) =
      match fix_ with
      | Some true =>
          [str "security-checker does not support auto-fixing "
             ++ join (str ",") extensions]
      | _ => []
      end).
  { rewrite perform_lint. unfold calls. simpl.
    destruct fix_ as [[|]|]; reflexivity. }
  split; [apply Hcmd|]. split; [intros; now rewrite !Hcmd|].
  split; [exact Hwarnings|].
  intros m e Hm He. rewrite Hwarnings in Hm.
  destruct fix_ as [[|]|]; try contradiction.
  destruct Hm as [<-|[]].
  destruct (join_includes (str ",") extensions e He) as (before & after & Heq).
  exists (str "security-checker does not support auto-fixing " ++ before),
    after.
  rewrite Heq. now rewrite <- !app_assoc.
Qed.

End Calls.

(** ** The properties at work on sample inputs *)

Import Sample.

(** Status 0 with three advisories: [isSuccess] is [true]. *)
Lemma parseOutput_isSuccess_witness :
  exists r,
    parseOutput (str ".") (output 0 three_advisories) = Normal r
    /\ List.length (error r) = 3
    /\ isSuccess r = Some true.
Proof.
  eexists. split; [vm_compute; reflexivity|]. split; [reflexivity|].
  refine (proj1 (parseOutput_isSuccess (str ".") (output 0 three_advisories)
                   _ _)).
  vm_compute; reflexivity.
Defined.

(** Status 1 with no advisory: [isSuccess] is [false]. *)
Example parseOutput_status_1_no_advisories :
  parseOutput (str ".") (output 1 (str "{}")) =
    Normal {| isSuccess := Some false; error := [];
              warning := []; notice := [] |}.
Proof. vm_compute; reflexivity. Qed.

Lemma parseOutput_after_decode_witness :
  parseOutput (str ".") (output 1 missing_advisories) = Throw TypeError.
Proof.
  refine (proj1 (proj2 (proj2 (parseOutput_after_decode (str ".")
            (output 1 missing_advisories) (decoded missing_advisories) _)))
            [(str "a/b", VObject [(str "version", VString (str "1.0"))])]
            (str "a/b") (VObject [(str "version", VString (str "1.0"))])
            _ _ _).
  - vm_compute; reflexivity.
  - vm_compute; reflexivity.
  - left; reflexivity.
  - reflexivity.
Defined.

(** The output [{"a/b":{"version":"1.0"}}], whose record has no
    [advisories], decodes and is not in the wire format; [parseOutput] ends
    with a [TypeError], not with the error of its [catch] clause.  The
    output [[]] decodes to an array, not an object of dependency records;
    [parseOutput] returns a result without findings. *)
Lemma parseOutput_deviation_counterexample :
  (JSON_parse missing_advisories =
     inl (VObject [(str "a/b", VObject [(str "version", VString (str "1.0"))])])
   /\ wire_format (decoded missing_advisories) = None
   /\ parseOutput (str ".") (output 1 missing_advisories) = Throw TypeError)
  /\ (JSON_parse empty_array = inl (VArray [])
      /\ wire_format (VArray [] : value JSON.number) = None
      /\ parseOutput (str ".") (output 1 empty_array) =
           Normal {| isSuccess := Some false; error := [];
                     warning := []; notice := [] |}).
Proof. repeat split; vm_compute; reflexivity. Qed.

(** An [advisories] member that is a string is walked character by
    character; each character yields an entry. *)
Example parseOutput_string_advisories :
  parseOutput (str ".") (output 1 string_advisories) =
    Normal {| isSuccess := Some false;
              error :=
                [ {| path := str "a/b version: 1 ";
                     firstLine := VUndefined; lastLine := VUndefined;
                     message :=
                       str "undefined (function link() { [native code] })" |};
                  {| path := str "a/b version: 1 ";
                     firstLine := VUndefined; lastLine := VUndefined;
                     message :=
                       str "undefined (function link() { [native code] })" |} ];
              warning := []; notice := [] |}.
Proof. vm_compute; reflexivity. Qed.

Lemma parseOutput_error_bucket_witness :
  exists r,
    parseOutput (str ".") (output 1 three_advisories) = Normal r
    /\ map path (error r) =
         [str "a/b version: 1.0 "; str "a/b version: 1.0 ";
          str "c/d version: 2.0 "]
    /\ map firstLine (error r) =
         [VString (str "C1"); VString (str "C2"); VString (str "C1")]
    /\ List.length (error r) = 3
    /\ warning r = []
    /\ notice r = [].
Proof.
  destruct (parseOutput_error_bucket (str ".") (output 1 three_advisories)
              (decoded three_advisories) three_advisories_dependencies)
    as (r & Hr & Herror & Hlength & Hwarning & Hnotice).
  - vm_compute; reflexivity.
  - vm_compute; reflexivity.
  - exists r. rewrite Herror. repeat split; assumption || reflexivity.
Defined.

(** The order of the findings is the order of the decoded object's
    properties: an index key comes first, a repeated key keeps its place
    and its later value. *)
Example Object_entries_index_keys :
  bind (Object_entries (decoded index_keys))
    (fun entries => Normal (map fst entries)) =
  Normal [str "2"; str "10"; str "b"].
Proof. vm_compute; reflexivity. Qed.

Lemma parseOutput_entry_fields_witness :
  exists r,
    parseOutput (str ".") (output 0 guzzle) = Normal r
    /\ In {| path := str "guzzlehttp/guzzle version: 6.2.0 ";
             firstLine := VString (str "CVE-2016-5385");
             lastLine := VString (str "CVE-2016-5385");
             message := str "Proxy header vuln (https://x)" |}
          (error r).
Proof.
  refine (parseOutput_entry_fields (str ".") (output 0 guzzle) (decoded guzzle)
            [guzzle_dependency] guzzle_dependency guzzle_advisory _ _ _ _).
  - vm_compute; reflexivity.
  - vm_compute; reflexivity.
  - left; reflexivity.
  - left; reflexivity.
Defined.

Example parseOutput_guzzle :
  parseOutput (str ".") (output 0 guzzle) =
    Normal {| isSuccess := Some true;
              error :=
                [ {| path := str "guzzlehttp/guzzle version: 6.2.0 ";
                     firstLine := VString (str "CVE-2016-5385");
                     lastLine := VString (str "CVE-2016-5385");
                     message := str "Proxy header vuln (https://x)" |} ];
              warning := []; notice := [] |}.
Proof. vm_compute; reflexivity. Qed.

Lemma parseOutput_decode_failure_witness :
  exists text,
    parseOutput (str ".") (output 1 (str "not json")) = Throw (Error text)
    /\ includes text (str "Unexpected token o in JSON at position 1")
    /\ includes text (str "not json").
Proof.
  destruct (parseOutput_decode_failure (str ".") (output 1 (str "not json"))
              (str "Unexpected token o in JSON at position 1"))
    as (text & Hthrow & _ & Hmessage & Hstdout).
  - vm_compute; reflexivity.
  - exists text. repeat split; assumption.
Defined.

Example parseOutput_not_json :
  parseOutput (str ".") (output 1 (str "not json")) =
    Throw (Error (text "Error parsing security-checker JSON output: Unexpected token o in JSON at position 1. Output: 'not json'")).
Proof. vm_compute; reflexivity. Qed.

Lemma verifySetup_outcomes_witness :
  perform (host false (Normal tool_output)) (verifySetup (str ".") None) 0 =
    (Throw (Error (str "PHP is not installed")), 1,
     [Ev_commandExists (str "php")])
  /\ perform (host true (Throw (Error (str "Command failed"))))
       (verifySetup (str ".") None) 0 =
       (Throw (Error (str "security-checker is not installed")), 2,
        [Ev_commandExists (str "php");
         Ev_run (str " security-checker --version")
           {| dir := str "."; ignoreErrors := None |}])
  /\ perform (host true (Normal tool_output))
       (verifySetup (str ".") (Some (str "docker exec app"))) 0 =
       (Normal tt, 2,
        [Ev_commandExists (str "php");
         Ev_run (str "docker exec app security-checker --version")
           {| dir := str "."; ignoreErrors := None |}]).
Proof.
  split; [|split].
  - exact (proj1 (verifySetup_outcomes (host false (Normal tool_output))
                    (str ".") None 0) eq_refl).
  - exact (proj1 (proj2 (verifySetup_outcomes
                    (host true (Throw (Error (str "Command failed"))))
                    (str ".") None 0)) eq_refl _ eq_refl).
  - exact (proj2 (proj2 (verifySetup_outcomes
                    (host true (Normal tool_output))
                    (str ".") (Some (str "docker exec app")) 0))
             eq_refl _ eq_refl).
Defined.

Lemma lint_returns_run_output_witness :
  status tool_output = 1%Z
  /\ outcome (perform (host true (Normal tool_output))
                (lint (str ".") [str "php"] None (Some true) None) 0) =
       Normal tool_output.
Proof.
  split; [reflexivity|].
  exact (proj2 (proj2 (lint_returns_run_output
                         (host true (Normal tool_output))
                         (str ".") [str "php"] None (Some true) None 0))
           tool_output eq_refl).
Defined.

Lemma lint_fix_requested_witness :
  calls (perform (host true (Normal tool_output))
           (lint (str ".") [str "php"; str "lock"] (Some (str "--quiet"))
              (Some true) (Some (str "composer exec"))) 0) =
    [Ev_warning (str "security-checker does not support auto-fixing php,lock");
     Ev_run (str "composer exec security-checker security:check composer.lock --quiet --no-dev --format=json")
       {| dir := str "."; ignoreErrors := Some true |}]
  /\ calls (perform (host true (Normal tool_output))
              (lint (str ".") [str "php"; str "lock"] (Some (str "--quiet"))
                 (Some false) (Some (str "composer exec"))) 0) =
       [Ev_run (str "composer exec security-checker security:check composer.lock --quiet --no-dev --format=json")
          {| dir := str "."; ignoreErrors := Some true |}].
Proof.
  destruct (lint_fix_requested (host true (Normal tool_output)) (str ".")
              [str "php"; str "lock"] (Some (str "--quiet"))
              (Some (str "composer exec")) 0)
    as (list_text & _ & Htrue & Hfalse & _ & _ & _ & _ & Htwo).
  rewrite (Htwo (str "php") (str "lock") eq_refl) in Htrue.
  split; [exact Htrue|exact Hfalse].
Defined.

Lemma lint_command_witness :
  commands
    (calls (perform (host true (Normal tool_output))
              (lint (str "/repo") [str "php"] (Some (str "--quiet"))
                 (Some true) (Some (str "composer exec"))) 0)) =
    [str "composer exec security-checker security:check composer.lock --quiet --no-dev --format=json"]
  /\ commands
       (calls (perform (host true (Normal tool_output))
                 (lint (str ".") [] None None None) 0)) =
       [str " security-checker security:check composer.lock  --no-dev --format=json"]
  /\ includes (str "security-checker does not support auto-fixing php")
       (str "php").
Proof.
  split; [|split].
  - exact (proj1 (lint_command (host true (Normal tool_output)) (str "/repo")
                    [str "php"] (Some (str "--quiet")) (Some true)
                    (Some (str "composer exec")) 0)).
  - exact (proj1 (lint_command (host true (Normal tool_output)) (str ".")
                    [] None None None 0)).
  - refine (proj2 (proj2 (proj2 (lint_command
              (host true (Normal tool_output)) (str "/repo") [str "php"]
              (Some (str "--quiet")) (Some true)
              (Some (str "composer exec")) 0))) _ (str "php") _ _).
    + left; reflexivity.
    + left; reflexivity.
Defined.

(** * Further properties of the adapter *)

Section Behaviour.

Context {number : Type} {engine : Engine number}.

Ltac bind_case H :=
  match type of H with
  | bind ?c _ = _ =>
      let E := fresh "E" in
      destruct c eqn:E; simpl in H
  end.

(** ** The buckets [parseOutput] fills *)

(** [parseOutput] writes to the [error] list only: whatever the output, a
    result it returns has no warning and no notice. *)
Theorem parseOutput_error_only dir output (r : LintResult number) :
  parseOutput dir output = Normal r ->
  warning r = [] /\ notice r = [].
Proof.
  unfold parseOutput. intro H.
  destruct (JSON_parse (stdout output)) as [outputJson|m]; [|discriminate].
  bind_case H; [|discriminate].
  apply for_dependency_frame in H. destruct H as (_ & Hw & Hn).
  split; assumption.
Qed.

(** ** The shape of every entry *)

Lemma make_entry_shape dependency (advisories advisor : value number) e :
  make_entry dependency advisories advisor = Normal e ->
  firstLine e = lastLine e
  /\ (exists t, path e = dependency ++ str " version: " ++ t ++ str " ")
  /\ (exists t l, message e = t ++ str " (" ++ l ++ str ")").
Proof.
  unfold make_entry. intro H.
  do 7 (bind_case H; [|discriminate]).
  injection H as <-. simpl. repeat split; eauto.
Qed.

Lemma for_advisor_Forall (P : entry number -> Prop) dependency advisories
    advisors r r' :
  (forall advisor e,
     make_entry dependency advisories advisor = Normal e -> P e) ->
  Forall P (error r) ->
  for_advisor dependency advisories advisors r = Normal r' ->
  Forall P (error r').
Proof.
  intro Hmake. revert r.
  induction advisors as [|advisor rest IH]; intros r Hr H; simpl in H.
  - injection H as <-. exact Hr.
  - bind_case H; [|discriminate].
    apply (IH (error_push r a)); [|exact H].
    simpl. apply Forall_app. split; [exact Hr|].
    constructor; [exact (Hmake _ _ E)|constructor].
Qed.

Lemma for_dependency_Forall (P : entry number -> Prop) entries r r' :
  (forall k x advisor e,
     In (k, x) entries -> make_entry k x advisor = Normal e -> P e) ->
  Forall P (error r) ->
  for_dependency entries r = Normal r' ->
  Forall P (error r').
Proof.
  revert r. induction entries as [|[dependency advisories] rest IH];
    intros r Hmake Hr H; simpl in H.
  - injection H as <-. exact Hr.
  - do 3 (bind_case H; [|discriminate]).
    apply (IH a1); [| |exact H].
    + intros k x advisor e Hin. apply Hmake. now right.
    + eapply for_advisor_Forall; [|exact Hr|exact E1].
      intros advisor e. apply Hmake. now left.
Qed.

(** Every entry of every result, in the wire format or not, carries the
    same value as [firstLine] and as [lastLine], a [path] made of a key of
    the decoded value, [" version: "], some text and a final space, and a
    [message] that ends with a text in parentheses. *)
Theorem parseOutput_entry_shape dir output v entries (r : LintResult number) :
  JSON_parse (stdout output) = inl v ->
  Object_entries v = Normal entries ->
  parseOutput dir output = Normal r ->
  Forall (fun e =>
            firstLine e = lastLine e
            /\ (exists k x t,
                  In (k, x) entries
                  /\ path e = k ++ str " version: " ++ t ++ str " ")
            /\ (exists t l, message e = t ++ str " (" ++ l ++ str ")"))
         (error r).
Proof.
  intros Hparse Hentries H. unfold parseOutput in H.
  rewrite Hparse, Hentries in H. simpl in H.
  refine (for_dependency_Forall _ entries
            (set_isSuccess initLintResult (status output =? 0)%Z) r
            _ (Forall_nil _) H).
  intros k x advisor e Hin Hmake.
  destruct (make_entry_shape _ _ _ _ Hmake) as (Hline & (t & Hpath) & Hmessage).
  split; [exact Hline|]. split; [|exact Hmessage].
  exists k, x, t. split; assumption.
Qed.

(** ** The number of entries *)

Lemma for_advisor_length dependency (advisories : value number) advisors
    r r' :
  for_advisor dependency advisories advisors r = Normal r' ->
  List.length (error r') = List.length (error r) + List.length advisors.
Proof.
  revert r. induction advisors as [|advisor rest IH]; intros r H; simpl in H.
  - injection H as <-. simpl. lia.
  - bind_case H; [|discriminate].
    rewrite (IH _ H). simpl. rewrite length_app. simpl. lia.
Qed.

Lemma iterate_visited (x list_ : value number) advisors :
  Get x P_advisories = Normal list_ ->
  iterate list_ = Normal advisors ->
  List.length advisors = visited x.
Proof.
  destruct x as [ | | | | | | ps | ]; simpl; try discriminate;
    try (intro H; injection H as <-; discriminate).
  destruct (own_property ps (str "advisories")) as [y|].
  - intro H; injection H as <-.
    destruct y; simpl; try discriminate.
    + intro H; injection H as <-. now rewrite length_map.
    + intro H; injection H as <-. reflexivity.
  - intro H; injection H as <-. discriminate.
Qed.

Lemma for_dependency_length (entries : list (jsstring * value number)) r r' :
  for_dependency entries r = Normal r' ->
  List.length (error r') =
  List.length (error r) + list_sum (map (fun kv => visited (snd kv)) entries).
Proof.
  revert r. induction entries as [|[dependency advisories] rest IH];
    intros r H; simpl in H.
  - injection H as <-. simpl. lia.
  - do 3 (bind_case H; [|discriminate]).
    rewrite (IH _ H), (for_advisor_length _ _ _ _ _ E1). simpl.
    rewrite (iterate_visited _ _ _ E E0). lia.
Qed.

(** A result holds one entry for every element the inner loop visits: the
    elements of each [advisories] array and the code points of each
    [advisories] string, summed over the entries of the decoded value. *)
Theorem parseOutput_entry_count dir output v entries (r : LintResult number) :
  JSON_parse (stdout output) = inl v ->
  Object_entries v = Normal entries ->
  parseOutput dir output = Normal r ->
  List.length (error r) = list_sum (map (fun kv => visited (snd kv)) entries).
Proof.
  intros Hparse Hentries H. unfold parseOutput in H.
  rewrite Hparse, Hentries in H. simpl in H.
  now rewrite (for_dependency_length _ _ _ H).
Qed.

(** ** The exit status and the findings *)

Lemma for_advisor_set_isSuccess dependency (advisories : value number)
    advisors r b :
  for_advisor dependency advisories advisors (set_isSuccess r b) =
  match for_advisor dependency advisories advisors r with
  | Normal r' => Normal (set_isSuccess r' b)
  | Throw e => Throw e
  end.
Proof.
  revert r. induction advisors as [|advisor rest IH]; intro r; simpl.
  - reflexivity.
  - destruct (make_entry dependency advisories advisor) as [e|e]; simpl.
    + apply (IH (error_push r e)).
    + reflexivity.
Qed.

Lemma for_dependency_set_isSuccess (entries : list (jsstring * value number))
    r b :
  for_dependency entries (set_isSuccess r b) =
  match for_dependency entries r with
  | Normal r' => Normal (set_isSuccess r' b)
  | Throw e => Throw e
  end.
Proof.
  revert r. induction entries as [|[dependency advisories] rest IH];
    intro r; simpl.
  - reflexivity.
  - destruct (Get advisories P_advisories) as [list_|e]; simpl; [|reflexivity].
    destruct (iterate list_) as [advisors|e]; simpl; [|reflexivity].
    rewrite for_advisor_set_isSuccess.
    destruct (for_advisor dependency advisories advisors r) as [r1|e]; simpl.
    + apply IH.
    + reflexivity.
Qed.

(** The exit status decides [isSuccess] and nothing else: two outputs with
    the same [stdout] and any two statuses give the same entries, or fail
    with the same error. *)
Theorem parseOutput_status_independent dir1 dir2 output1 output2 :
  stdout output1 = stdout output2 ->
  (forall r1 : LintResult number,
     parseOutput dir1 output1 = Normal r1 ->
     exists r2,
       parseOutput dir2 output2 = Normal r2
       /\ error r2 = error r1
       /\ warning r2 = warning r1
       /\ notice r2 = notice r1)
  /\ (forall e,
        parseOutput dir1 output1 = Throw e ->
        parseOutput dir2 output2 = Throw (A := LintResult number) e).
Proof.
  intro Hstdout. unfold parseOutput. rewrite Hstdout.
  destruct (JSON_parse (stdout output2)) as [outputJson|m].
  2:{ split; [discriminate|]. intros e H. exact H. }
  destruct (Object_entries outputJson) as [entries|e0]; simpl.
  2:{ split; [discriminate|]. intros e H. exact H. }
  rewrite !for_dependency_set_isSuccess.
  destruct (for_dependency entries initLintResult) as [r|e0].
  - split; [|discriminate].
    intros r1 H. injection H as <-. eexists. split; [reflexivity|].
    simpl. auto.
  - split; [discriminate|]. intros e H. exact H.
Qed.

(** ** Members that are absent or not strings *)

Lemma Get_member (qs : list (jsstring * value number)) (p : property) :
  Get (VObject qs) p = Normal (member_value (own_property qs (property_key p))).
Proof.
  unfold Get, member_value.
  now destruct (own_property qs (property_key p)).
Qed.

Lemma ToString_member (m : option (value number)) t :
  member_text m = Some t ->
  ToString (member_value m) = Normal t.
Proof.
  destruct m as [[ | | | | | | | ]|]; simpl; intro H;
    try discriminate; now injection H as <-.
Qed.

Lemma make_entry_tolerated dependency ps version_text
    (advisor : value number) e :
  member_text (own_property ps (str "version")) = Some version_text ->
  tolerated_advisory dependency version_text advisor = Some e ->
  make_entry dependency (VObject ps) advisor = Normal e.
Proof.
  intros Hversion He.
  destruct advisor as [ | | | | | | qs | ]; try discriminate.
  unfold tolerated_advisory in He.
  destruct (member_text (own_property qs (str "title"))) as [t|] eqn:Ht;
    [|discriminate].
  destruct (member_text (own_property qs (str "link"))) as [l|] eqn:Hl;
    [|discriminate].
  injection He as <-.
  unfold make_entry. rewrite !Get_member. simpl.
  rewrite (ToString_member _ _ Hversion). simpl.
  rewrite (ToString_member _ _ Ht). simpl.
  rewrite (ToString_member _ _ Hl). reflexivity.
Qed.

Lemma for_advisor_tolerated dependency ps version_text
    (advisors : list (value number)) es r :
  member_text (own_property ps (str "version")) = Some version_text ->
  traverse (tolerated_advisory dependency version_text) advisors = Some es ->
  for_advisor dependency (VObject ps) advisors r =
    Normal {| isSuccess := isSuccess r;
              error := error r ++ es;
              warning := warning r;
              notice := notice r |}.
Proof.
  intro Hversion. revert es r.
  induction advisors as [|advisor rest IH]; intros es r; simpl.
  - intro H; injection H as <-. rewrite app_nil_r. now destruct r.
  - destruct (tolerated_advisory dependency version_text advisor) as [e|] eqn:He;
      [|discriminate].
    destruct (traverse (tolerated_advisory dependency version_text) rest)
      as [l|]; [|discriminate].
    intro H; injection H as <-.
    rewrite (make_entry_tolerated _ _ _ _ _ Hversion He). simpl.
    rewrite (IH l _ eq_refl). simpl. now rewrite <- app_assoc.
Qed.

Lemma for_dependency_tolerated (entries : list (jsstring * value number))
    ls r :
  traverse tolerated_dependency entries = Some ls ->
  for_dependency entries r =
    Normal {| isSuccess := isSuccess r;
              error := error r ++ List.concat ls;
              warning := warning r;
              notice := notice r |}.
Proof.
  revert ls r.
  induction entries as [|[dependency x] rest IH]; intros ls r; simpl.
  - intro H; injection H as <-. simpl. rewrite app_nil_r. now destruct r.
  - destruct (tolerated_dependency (dependency, x)) as [es|] eqn:Hes;
      [|discriminate].
    destruct (traverse tolerated_dependency rest) as [l|]; [|discriminate].
    intro H; injection H as <-.
    unfold tolerated_dependency in Hes. simpl in Hes.
    destruct x as [ | | | | | | ps | ]; try discriminate.
    destruct (own_property ps (str "advisories"))
      as [[ | | | | | advisors | | ]|] eqn:Hadvisories; try discriminate.
    assert (Hloop : for_advisor dependency (VObject ps) advisors r =
              Normal {| isSuccess := isSuccess r;
                        error := error r ++ es;
                        warning := warning r;
                        notice := notice r |}).
    { destruct advisors as [|advisor more].
      - injection Hes as <-. simpl. rewrite app_nil_r. now destruct r.
      - destruct (member_text (own_property ps (str "version")))
          as [version_text|] eqn:Hversion; [|discriminate].
        now apply (for_advisor_tolerated _ _ version_text). }
    unfold Get. simpl property_key. rewrite Hadvisories. simpl.
    rewrite Hloop. simpl. rewrite (IH l _ eq_refl). simpl.
    now rewrite <- app_assoc.
Qed.

(** Absent members are not rejected.  When every entry of the decoded
    value, object or array, is a record with an [advisories] array of
    objects, and [version], [title] and [link] are each absent or a string,
    number, boolean or [null], [parseOutput] returns one entry per advisory:
    an absent member shows as the text [undefined] in [path] and [message],
    an absent [cve] leaves both markers [undefined], and a [cve] of any type
    is stored as it is. *)
Theorem parseOutput_tolerated dir output v entries ls :
  JSON_parse (stdout output) = inl v ->
  Object_entries v = Normal entries ->
  traverse tolerated_dependency entries = Some ls ->
  parseOutput dir output =
    Normal {| isSuccess := Some (status output =? 0)%Z;
              error := List.concat ls;
              warning := [];
              notice := [] |}.
Proof.
  intros Hparse Hentries Hls. unfold parseOutput.
  rewrite Hparse, Hentries. simpl.
  now rewrite (for_dependency_tolerated _ _ _ Hls).
Qed.

(** ** A null advisory *)

Lemma for_advisor_normal_no_null dependency (advisories : value number)
    advisors r r' :
  for_advisor dependency advisories advisors r = Normal r' ->
  ~ In VNull advisors.
Proof.
  revert r. induction advisors as [|advisor rest IH]; intros r H Hin.
  - contradiction.
  - simpl in H. destruct Hin as [->|Hin].
    + discriminate.
    + bind_case H; [|discriminate]. exact (IH _ H Hin).
Qed.

Lemma for_dependency_normal_no_null (entries : list (jsstring * value number))
    r r' k ps advisors :
  for_dependency entries r = Normal r' ->
  In (k, VObject ps) entries ->
  own_property ps (str "advisories") = Some (VArray advisors) ->
  ~ In VNull advisors.
Proof.
  revert r. induction entries as [|[dependency x] rest IH];
    intros r H Hin Hadvisories; [contradiction|].
  simpl in H. destruct Hin as [Heq|Hin].
  - injection Heq as -> ->.
    unfold Get in H. simpl property_key in H. rewrite Hadvisories in H.
    simpl in H. bind_case H; [|discriminate].
    eapply for_advisor_normal_no_null; eassumption.
  - do 3 (bind_case H; [|discriminate]). eapply IH; eassumption.
Qed.

(** One [null] among the advisories of one dependency makes [parseOutput]
    fail with a [TypeError]; the entries collected before it are lost with
    the result. *)
Theorem parseOutput_null_advisory dir output v entries k ps advisors :
  JSON_parse (stdout output) = inl v ->
  Object_entries v = Normal entries ->
  In (k, VObject ps) entries ->
  own_property ps (str "advisories") = Some (VArray advisors) ->
  In VNull advisors ->
  parseOutput dir output = Throw (A := LintResult number) TypeError.
Proof.
  intros Hparse Hentries Hin Hadvisories Hnull.
  destruct (parseOutput dir output) as [r|e] eqn:Hrun.
  - unfold parseOutput in Hrun. rewrite Hparse, Hentries in Hrun.
    simpl in Hrun.
    destruct (for_dependency_normal_no_null _ _ _ _ _ _ Hrun Hin Hadvisories
                Hnull).
  - unfold parseOutput in Hrun. rewrite Hparse, Hentries in Hrun.
    simpl in Hrun. now rewrite (for_dependency_throws _ _ _ Hrun).
Qed.

(** ** The payload in the error message *)

(** The message of a decode failure keeps the standard output apart: two
    outputs that the decoder rejects with the same message and that make
    [parseOutput] throw the same error have the same [stdout]. *)
Theorem parseOutput_failure_keeps_stdout dir1 dir2 output1 output2 m :
  JSON_parse (stdout output1) = inr m ->
  JSON_parse (stdout output2) = inr m ->
  parseOutput dir1 output1 = parseOutput dir2 output2 ->
  stdout output1 = stdout output2.
Proof.
  intros H1 H2. unfold parseOutput. rewrite H1, H2.
  unfold OutputParseError. intro H.
  assert (Hmessage :
    str "Error parsing " ++ name ++ str " JSON output: " ++ m
      ++ str ". Output: " ++ quote ++ stdout output1 ++ quote =
    str "Error parsing " ++ name ++ str " JSON output: " ++ m
      ++ str ". Output: " ++ quote ++ stdout output2 ++ quote)
    by congruence.
  do 6 apply app_inv_head in Hmessage.
  now apply app_inv_tail in Hmessage.
Qed.

End Behaviour.

Section Setup.

Context {W : Type} (h : Host W).

(** Once the probe for [php] has answered, with [true] or with [false],
    [verifySetup] ends in one of three ways, whatever the answer and
    whatever [run] does: it returns, or throws one of its two fixed
    messages, so an error thrown by [run] never reaches the caller.  It
    makes no warning; its calls are the probe, followed or not by the
    version command; and when it returns, the version command was run. *)
Theorem verifySetup_ends (dir : jsstring) (prefix : option jsstring) (w : W) :
  let r := perform h (verifySetup dir prefix) w in
  let cmd := or_default prefix (str "") ++ str " security-checker --version" in
  (outcome r = Normal tt
   \/ outcome r = Throw (Error (str "PHP is not installed"))
   \/ outcome r = Throw (Error (str "security-checker is not installed")))
  /\ warnings (calls r) = []
  /\ (calls r = [Ev_commandExists (str "php")]
      \/ calls r = [Ev_commandExists (str "php");
                    Ev_run cmd {| dir := dir; ignoreErrors := None |}])
  /\ (outcome r = Normal tt -> commands (calls r) = [cmd]).
Proof.
  cbv zeta. unfold verifySetup. simpl.
  destruct (commandExists h (str "php") w) as [[|] w1]; simpl.
  - destruct (run h _ _ w1) as [[out|e] w2]; simpl;
      unfold outcome, calls; simpl; repeat split; auto; discriminate.
  - unfold outcome, calls; simpl; repeat split; auto; discriminate.
Qed.

End Setup.

(** ** The further properties at work on sample inputs *)

Lemma parseOutput_error_only_witness :
  exists r,
    parseOutput (str ".") (output 1 string_advisories) = Normal r
    /\ List.length (error r) = 2
    /\ warning r = []
    /\ notice r = [].
Proof.
  eexists. split; [vm_compute; reflexivity|]. split; [reflexivity|].
  apply (parseOutput_error_only (str ".") (output 1 string_advisories)).
  vm_compute; reflexivity.
Defined.

Lemma parseOutput_entry_shape_witness :
  exists r,
    parseOutput (str ".") (output 0 sparse_records) = Normal r
    /\ List.length (error r) = 3
    /\ Forall (fun e => firstLine e = lastLine e) (error r).
Proof.
  eexists. split; [vm_compute; reflexivity|]. split; [reflexivity|].
  eapply Forall_impl;
    [|eapply (parseOutput_entry_shape (str ".") (output 0 sparse_records)
                (decoded sparse_records))].
  - intros e (H & _). exact H.
  - vm_compute; reflexivity.
  - vm_compute; reflexivity.
  - vm_compute; reflexivity.
Defined.

Lemma parseOutput_entry_count_witness :
  exists r,
    parseOutput (str ".") (output 1 string_advisories) = Normal r
    /\ List.length (error r) = 2.
Proof.
  eexists. split; [vm_compute; reflexivity|].
  refine (eq_trans
            (parseOutput_entry_count (str ".") (output 1 string_advisories)
               (decoded string_advisories) _ _ _ _ _) _).
  - vm_compute; reflexivity.
  - vm_compute; reflexivity.
  - vm_compute; reflexivity.
  - reflexivity.
Defined.

Lemma parseOutput_status_independent_witness :
  exists r2,
    parseOutput (str "b") (output 1 guzzle) = Normal r2
    /\ error r2 = findings guzzle_dependency.
Proof.
  destruct (proj1 (parseOutput_status_independent (str "a") (str "b")
                     (output 0 guzzle) (output 1 guzzle) eq_refl)
              {| isSuccess := Some true;
                 error := findings guzzle_dependency;
                 warning := [];
                 notice := [] |})
    as (r2 & Hrun & Herror & _).
  - vm_compute; reflexivity.
  - exists r2. split; [exact Hrun|exact Herror].
Defined.

Lemma parseOutput_tolerated_witness :
  parseOutput (str ".") (output 0 sparse_records) =
    Normal {| isSuccess := Some true;
              error :=
                [ {| path := str "0 version: undefined ";
                     firstLine := VNumber (str "7");
                     lastLine := VNumber (str "7");
                     message := str "null (undefined)" |};
                  {| path := str "0 version: undefined ";
                     firstLine := VUndefined;
                     lastLine := VUndefined;
                     message := str "undefined (L)" |};
                  {| path := str "2 version: true ";
                     firstLine := VUndefined;
                     lastLine := VUndefined;
                     message := str "undefined (undefined)" |} ];
              warning := [];
              notice := [] |}.
Proof.
  erewrite (parseOutput_tolerated (str ".") (output 0 sparse_records)
              (decoded sparse_records)); cycle 1.
  - vm_compute; reflexivity.
  - vm_compute; reflexivity.
  - vm_compute; reflexivity.
  - vm_compute; reflexivity.
Defined.

Lemma parseOutput_null_advisory_witness :
  parseOutput (str ".") (output 0 null_advisory) = Throw TypeError.
Proof.
  refine (parseOutput_null_advisory (str ".") (output 0 null_advisory)
            (decoded null_advisory) _ _ _ _ _ _ _ _ _).
  - vm_compute; reflexivity.
  - vm_compute; reflexivity.
  - left; reflexivity.
  - vm_compute; reflexivity.
  - right; left; reflexivity.
Defined.

Lemma parseOutput_failure_keeps_stdout_witness :
  stdout {| status := 1; stdout := str "not json"; stderr := [] |} =
  stdout {| status := 2; stdout := str "not json"; stderr := str "fatal" |}.
Proof.
  refine (parseOutput_failure_keeps_stdout (str "a") (str "b") _ _
            (str "Unexpected token o in JSON at position 1") _ _ _).
  - vm_compute; reflexivity.
  - vm_compute; reflexivity.
  - vm_compute; reflexivity.
Defined.

Lemma verifySetup_ends_witness :
  commands
    (calls (perform (host true (Normal tool_output))
              (verifySetup (str ".") None) 0)) =
    [str " security-checker --version"].
Proof.
  exact (proj2 (proj2 (proj2 (verifySetup_ends
                                (host true (Normal tool_output))
                                (str ".") None 0))) eq_refl).
Defined.

(** * parseOutput and the objects it is given *)

Section StoreProperties.

Context {number : Type} {engine : Engine number}.

Lemma read_old (s t : Store.store number) (l : Store.loc) :
  l < List.length s -> Store.read (s ++ t) l = Store.read s l.
Proof. intro H. unfold Store.read. now apply nth_error_app1. Qed.

Lemma read_new (s t : Store.store number) (k : nat) :
  Store.read (s ++ t) (List.length s + k) = nth_error t k.
Proof.
  unfold Store.read. rewrite nth_error_app2 by lia.
  f_equal. lia.
Qed.

Lemma read_first (s t : Store.store number) :
  Store.read (s ++ t) (List.length s) = nth_error t 0.
Proof. rewrite <- (read_new s t 0). f_equal. lia. Qed.

Lemma write_first (s t : Store.store number) (c : Store.cell number) :
  Store.write (s ++ t) (List.length s) c = s ++ Store.write t 0 c.
Proof.
  induction s as [|x s IH]; simpl; [reflexivity|]. now rewrite IH.
Qed.

Lemma write_new (s t : Store.store number) (k : nat) (c : Store.cell number) :
  Store.write (s ++ t) (List.length s + k) c = s ++ Store.write t k c.
Proof.
  induction s as [|x s IH]; simpl; [reflexivity|]. now rewrite IH.
Qed.

Lemma read_with_result_old (s : Store.store number) r (l : Store.loc) :
  l < List.length s -> Store.read (Store.with_result s r) l = Store.read s l.
Proof. apply read_old. Qed.

Lemma read_Some_lt (s : Store.store number) (l : Store.loc) c :
  Store.read s l = Some c -> l < List.length s.
Proof.
  intro H. apply nth_error_Some. unfold Store.read in H. congruence.
Qed.

Lemma result_at_with_result (s : Store.store number) r :
  Store.result_at (Store.with_result s r) (List.length s + 3) = Some r.
Proof.
  unfold Store.result_at, Store.with_result.
  rewrite read_new. simpl.
  rewrite read_first, !read_new. simpl. now destruct r.
Qed.

Lemma initLintResult_with_result (s : Store.store number) :
  Store.initLintResult s =
    (Normal (List.length s + 3), Store.with_result s initLintResult).
Proof.
  unfold Store.initLintResult, Store.alloc, Store.with_result. simpl.
  rewrite !length_app. simpl. rewrite <- !app_assoc. simpl.
  replace (List.length s + 1 + 1 + 1) with (List.length s + 3) by lia.
  replace (List.length s + 1 + 1) with (List.length s + 2) by lia.
  reflexivity.
Qed.

Lemma set_isSuccess_with_result (s : Store.store number) r b :
  Store.set_isSuccess (List.length s + 3) b (Store.with_result s r) =
    (Normal tt, Store.with_result s (set_isSuccess r b)).
Proof.
  unfold Store.set_isSuccess, Store.with_result.
  rewrite read_new. simpl. now rewrite write_new.
Qed.

Lemma error_push_with_result (s : Store.store number) r e :
  Store.error_push (List.length s + 3) e (Store.with_result s r) =
    (Normal tt, Store.with_result s (error_push r e)).
Proof.
  unfold Store.error_push, Store.with_result.
  rewrite read_new. simpl.
  rewrite read_first. simpl. now rewrite write_first.
Qed.

(** The loops on the store do what the loops on the record do, and leave
    the store as it was but for the result object. *)
Lemma for_advisor_store (s : Store.store number) dependency advisories
    advisors r :
  exists r'',
    Store.for_advisor dependency advisories advisors (List.length s + 3)
      (Store.with_result s r) =
      (match for_advisor dependency advisories advisors r with
       | Normal _ => Normal tt
       | Throw e => Throw e
       end, Store.with_result s r'')
    /\ (forall r', for_advisor dependency advisories advisors r = Normal r' ->
                   r'' = r').
Proof.
  revert r. induction advisors as [|advisor rest IH]; intro r; simpl.
  - exists r. split; [reflexivity|]. intros r' H. now injection H.
  - unfold Store.bind at 1, Store.lift.
    destruct (make_entry dependency advisories advisor) as [e|e]; simpl.
    + unfold Store.bind at 1. rewrite error_push_with_result.
      apply IH.
    + exists r. split; [reflexivity|discriminate].
Qed.

Lemma for_dependency_store (s : Store.store number) entries r :
  exists r'',
    Store.for_dependency entries (List.length s + 3) (Store.with_result s r) =
      (match for_dependency entries r with
       | Normal _ => Normal tt
       | Throw e => Throw e
       end, Store.with_result s r'')
    /\ (forall r', for_dependency entries r = Normal r' -> r'' = r').
Proof.
  revert r. induction entries as [|[dependency advisories] rest IH];
    intro r; simpl.
  - exists r. split; [reflexivity|]. intros r' H. now injection H.
  - unfold Store.bind at 1, Store.lift.
    destruct (Get advisories P_advisories) as [list_|e]; simpl.
    2:{ exists r. split; [reflexivity|discriminate]. }
    unfold Store.bind at 1.
    destruct (iterate list_) as [advisors|e]; simpl.
    2:{ exists r. split; [reflexivity|discriminate]. }
    unfold Store.bind at 1.
    destruct (for_advisor_store s dependency advisories advisors r)
      as (r1 & -> & Hr1).
    destruct (for_advisor dependency advisories advisors r) as [r'|e]; simpl.
    + rewrite (Hr1 r' eq_refl). apply IH.
    + exists r1. split; [reflexivity|discriminate].
Qed.

Lemma parseOutput_store (s : Store.store number) dir output o :
  Store.read s output = Some (Store.Output o) ->
  exists r'',
    Store.parseOutput dir output s =
      (match parseOutput dir o with
       | Normal _ => Normal (List.length s + 3)
       | Throw e => Throw e
       end, Store.with_result s r'')
    /\ (forall r', parseOutput dir o = Normal r' -> r'' = r').
Proof.
  intro Hread.
  assert (Hkept : forall r,
            Store.read (Store.with_result s r) output =
            Some (Store.Output o)).
  { intro r. rewrite read_with_result_old; [exact Hread|].
    eapply read_Some_lt; eassumption. }
  unfold Store.parseOutput, parseOutput.
  unfold Store.bind at 1. rewrite initLintResult_with_result.
  unfold Store.bind at 1, Store.get_status. rewrite Hkept.
  unfold Store.bind at 1. rewrite set_isSuccess_with_result.
  unfold Store.bind at 1, Store.get_stdout. rewrite Hkept.
  destruct (JSON_parse (stdout o)) as [outputJson|m].
  - unfold Store.bind at 1, Store.lift.
    destruct (Object_entries outputJson) as [entries|e]; simpl.
    2:{ eexists. split; [reflexivity|discriminate]. }
    unfold Store.bind at 1.
    destruct (for_dependency_store s entries
                (set_isSuccess initLintResult (status o =? 0)%Z))
      as (r1 & -> & Hr1).
    destruct (for_dependency entries
                (set_isSuccess initLintResult (status o =? 0)%Z))
      as [r'|e]; simpl.
    + exists r1. split; [reflexivity|exact Hr1].
    + exists r1. split; [reflexivity|discriminate].
  - unfold Store.bind at 1. rewrite Hkept. unfold Store.throw.
    eexists. split; [reflexivity|discriminate].
Qed.

(** C9.  A call of [parseOutput] leaves every object that existed before
    it as it was, the output object it was handed included: it writes to
    the result object it creates and to nothing else.  Two calls whose
    output objects agree on [status] and [stdout] end alike, whatever the
    directory, [stderr] and the rest of the store: both throw the same
    error, or both return a new result object with the same content. *)
Theorem parseOutput_deterministic dir1 dir2
    (s1 s2 : Store.store number) output1 output2 o1 o2 :
  Store.read s1 output1 = Some (Store.Output o1) ->
  Store.read s2 output2 = Some (Store.Output o2) ->
  status o1 = status o2 ->
  stdout o1 = stdout o2 ->
  (forall l, l < List.length s1 ->
     Store.read (snd (Store.parseOutput dir1 output1 s1)) l = Store.read s1 l)
  /\ match fst (Store.parseOutput dir1 output1 s1),
           fst (Store.parseOutput dir2 output2 s2) with
     | Normal l1, Normal l2 =>
         List.length s1 <= l1
         /\ List.length s2 <= l2
         /\ exists r,
              Store.result_at (snd (Store.parseOutput dir1 output1 s1)) l1
                = Some r
              /\ Store.result_at (snd (Store.parseOutput dir2 output2 s2)) l2
                   = Some r
              /\ parseOutput dir1 o1 = Normal r
     | Throw e1, Throw e2 => e1 = e2 /\ parseOutput dir1 o1 = Throw e1
     | _, _ => False
     end.
Proof.
  intros Hread1 Hread2 Hstatus Hstdout.
  destruct (parseOutput_store s1 dir1 output1 o1 Hread1) as (r1 & -> & Hr1).
  destruct (parseOutput_store s2 dir2 output2 o2 Hread2) as (r2 & -> & Hr2).
  rewrite <- (parseOutput_fields dir1 dir2 o1 o2 Hstatus Hstdout) in *.
  simpl. split.
  - intros l Hl. now apply read_with_result_old.
  - destruct (parseOutput dir1 o1) as [r|e]; simpl.
    + split; [lia|]. split; [lia|]. exists r.
      rewrite (Hr1 r eq_refl), (Hr2 r eq_refl).
      rewrite !result_at_with_result. auto.
    + auto.
Qed.

End StoreProperties.

Lemma parseOutput_deterministic_witness :
  Store.read (snd (Store.parseOutput (str "a") 0 earlier_store)) 0 =
    Some (Store.Output {| status := 0; stdout := guzzle; stderr := [] |})
  /\ exists r,
       Store.result_at (snd (Store.parseOutput (str "a") 0 earlier_store)) 9
         = Some r
       /\ Store.result_at (snd (Store.parseOutput (str "b") 5 earlier_store)) 9
            = Some r
       /\ error r = findings guzzle_dependency.
Proof.
  destruct (parseOutput_deterministic (str "a") (str "b")
              earlier_store earlier_store 0 5 _ _
              eq_refl eq_refl eq_refl eq_refl) as [Hframe Hsame].
  split.
  - refine (Hframe 0 _). vm_compute. lia.
  - vm_compute in Hsame.
    destruct Hsame as (_ & _ & r & H1 & H2 & H3).
    exists r. split; [exact H1|]. split; [exact H2|].
    injection H3 as <-. vm_compute; reflexivity.
Defined.
